(** * Design-pattern catalogue (script.js): a shallow embedding and its properties

    The script is a sequence of independent class groups, one per pattern.
    Each group is embedded in a module of its own.  Objects that the script
    shares by reference (the singleton instance, the array behind a
    collection and its iterators, freshly built vehicles) live in an explicit
    heap addressed by allocation order; objects that are only read (leaves,
    observers, handlers, commands) are plain values. *)

From Stdlib Require Import QArith.
From stdpp Require Import base numbers list strings.

Local Open Scope string_scope.
Local Open Scope list_scope.

(** ** Completions: the JavaScript effects the script uses *)

(** [throw new Error(msg)] and the engine's own [TypeError]. *)
Inductive exn : Type :=
| Error (message : string)
| TypeError (message : string).

Inductive completion (A : Type) : Type :=
| Normal (a : A)
| Throw (e : exn).
Arguments Normal {A} a.
Arguments Throw {A} e.

(** A reference is the allocation index of an object in its heap. *)
Definition loc := nat.

(** A computation over a store [S]: it ends normally or throws, and the
    store it leaves behind is kept in both cases (a [throw] does not roll
    anything back). *)
Definition js (S A : Type) : Type := S -> completion A * S.

Definition ret {S A} (a : A) : js S A := fun s => (Normal a, s).
Definition throw {S A} (e : exn) : js S A := fun s => (Throw e, s).
Definition bind {S A B} (m : js S A) (k : A -> js S B) : js S B :=
  fun s => match m s with
           | (Normal a, s') => k a s'
           | (Throw e, s') => (Throw e, s')
           end.
Definition gets {S A} (f : S -> A) : js S A := fun s => (Normal (f s), s).
Definition modify {S} (f : S -> S) : js S unit := fun s => (Normal tt, f s).

Declare Scope js_scope.
Delimit Scope js_scope with js.
Notation "x <- m ;; k" := (bind m (fun x => k))
  (at level 100, m at next level, right associativity) : js_scope.
Notation "m ;; k" := (bind m (fun _ => k))
  (at level 100, right associativity) : js_scope.

(** [try { m } catch (e) { ... }] as far as the caller sees it: the
    completion of [m] becomes a value. *)
Definition attempt {S A} (m : js S A) : js S (completion A) :=
  fun s => let '(c, s') := m s in (Normal c, s').

(** Run a computation [n] times in a row, keeping every completion: a
    throwing call does not stop the caller from calling again. *)
Fixpoint times {S A} (n : nat) (m : js S A) (s : S) : list (completion A) * S :=
  match n with
  | O => ([], s)
  | S n' => let '(c, s') := m s in
            let '(cs, s'') := times n' m s' in
            (c :: cs, s'')
  end.

(** A caller that makes one call per element of [xs], each in a
    [try]/[catch] of its own, and keeps the completions. *)
Fixpoint each {S A B} (f : A -> js S B) (xs : list A) (s : S)
  : list (completion B) * S :=
  match xs with
  | [] => ([], s)
  | x :: xs' => let '(c, s') := f x s in
                let '(cs, s'') := each f xs' s' in
                (c :: cs, s'')
  end.

(** The values of the calls that ended normally. *)
Definition normals {A} (cs : list (completion A)) : list A :=
  omap (fun c => match c with Normal a => Some a | Throw _ => None end) cs.

(** ** Singleton *)

Module Singleton.

(** An instance carries the one field [value]. *)
Record obj : Type := { value : Q }.

(** The store: the instances allocated so far, the private static slot
    [#instance] ([None] is [null]) and the number of [Math.random()]
    draws made so far. *)
Record world : Type := {
  heap : list obj;
  instance : option loc;
  draws : nat
}.

(** The store before the first statement of the script. *)
Definition boot : world := {| heap := []; instance := None; draws := 0 |}.

Definition set_instance (i : option loc) (w : world) : world :=
  {| heap := heap w; instance := i; draws := draws w |}.

(** The slot never dangles: what it refers to has been allocated. *)
Definition well_formed (w : world) : Prop :=
  forall l, instance w = Some l -> is_Some (heap w !! l).

(** [new Singleton()] or [Singleton.getInstance()]. *)
Inductive call : Type := DirectNew | ViaGetInstance.

Section WithRandom.

(** [random k] is the number returned by the [k]-th call of
    [Math.random()]. *)
Variable random : nat -> Q.

(** [this.value = Math.random()] on a fresh object. *)
Definition alloc_random : js world loc := fun w =>
  (Normal (length (heap w)),
   {| heap := heap w ++ [{| value := random (draws w) |}];
      instance := instance w;
      draws := S (draws w) |}).

(** [new Singleton()] *)
Definition constructor : js world loc :=
  (i <- gets instance ;;
   match i with
   | Some _ =>
       throw (Error "Cannot instantiate directly. Use Singleton.getInstance() instead.")
   | None => alloc_random
   end)%js.

(** [Singleton.getInstance()]; the result is the content of the slot. *)
Definition getInstance : js world (option loc) :=
  (i <- gets instance ;;
   match i with
   | None => (l <- constructor ;; modify (set_instance (Some l)))
   | Some _ => ret tt
   end ;;
   gets instance)%js.

(** [r.value] for the result [r] of an access.  A reference outside the
    heap has no counterpart in JavaScript (see [well_formed]); reading
    through it is made an error here. *)
Definition get_value (r : option loc) : js world Q := fun w =>
  match r with
  | None => (Throw (TypeError "Cannot read properties of null (reading 'value')"), w)
  | Some l =>
      match heap w !! l with
      | Some o => (Normal (value o), w)
      | None => (Throw (TypeError "dangling reference"), w)
      end
  end.

(** The store once the first [getInstance()] has built the instance. *)
Definition created (w : world) : world :=
  {| heap := heap w ++ [{| value := random (draws w) |}];
     instance := Some (length (heap w));
     draws := S (draws w) |}.

(** One access as the script makes it:
    [const i = Singleton.getInstance(); i.value]. *)
Definition access : js world (option loc * Q) :=
  (r <- getInstance ;; v <- get_value r ;; ret (r, v))%js.

(** The two ways a caller has to ask for an instance, with what each
    hands back ([new] always yields an object when it returns). *)
Definition perform (c : call) : js world (option loc) :=
  match c with
  | DirectNew => (l <- constructor ;; ret (Some l))%js
  | ViaGetInstance => getInstance
  end.

End WithRandom.

End Singleton.


(** ** Factory method *)

Module Factory.

(** The class of a vehicle object; the objects have no fields. *)
Inductive class : Type := Vehicle | Car | Bike.

(** The vehicles allocated so far. *)
Definition heap := list class.

(** [new C()] for a class [C] of the hierarchy. *)
Definition new (c : class) : js heap loc := fun h => (Normal (length h), h ++ [c]).

(** [VehicleFactory.getVehicle(type)]: the [switch] compares with [===],
    first against ['car'], then against ['bike']. *)
Definition getVehicle (type : string) : js heap loc :=
  if String.eqb type "car" then new Car
  else if String.eqb type "bike" then new Bike
  else throw (Error "Unknown vehicle type").

(** The body of [create()] that a class provides. *)
Definition create_body (c : class) : completion string :=
  match c with
  | Vehicle => Throw (Error "This method should be overridden!")
  | Car => Normal "Car created"
  | Bike => Normal "Bike created"
  end.

(** [v.create()], dispatched on the class of the object behind [v]. *)
Definition create (v : loc) : js heap string := fun h =>
  match h !! v with
  | Some c => (create_body c, h)
  | None => (Throw (TypeError "dangling reference"), h)
  end.

End Factory.

(** ** Decorator *)

Module Decorator.

(** What the script can pass where a coffee is expected: the base coffee
    or a decorator around such a component (field [coffee]). *)
Inductive Component : Type :=
| Coffee
| MilkDecorator (coffee : Component)
| SugarDecorator (coffee : Component).

(** [c.cost()].  The numbers of the script are integers; JavaScript adds
    them exactly as long as they stay below [2^53] (see [cost_bound]). *)
Fixpoint cost (c : Component) : Z :=
  match c with
  | Coffee => 5
  | MilkDecorator coffee => cost coffee + 2
  | SugarDecorator coffee => cost coffee + 1
  end.

(** The two decorator classes, to speak of a nesting of [N] of them. *)
Inductive layer : Type := Milk | Sugar.

Definition wrap (d : layer) (c : Component) : Component :=
  match d with
  | Milk => MilkDecorator c
  | Sugar => SugarDecorator c
  end.

Definition increment (d : layer) : Z :=
  match d with
  | Milk => 2
  | Sugar => 1
  end.

(** [nest [dN; ...; d1] base] wraps [base] in [d1] first and [dN] last. *)
Definition nest (ds : list layer) (base : Component) : Component :=
  foldr wrap base ds.

(** The sum of the increments of a nesting. *)
Definition increments (ds : list layer) : Z :=
  foldr (fun d acc => increment d + acc)%Z 0%Z ds.

(** Number of decorators around the base coffee. *)
Fixpoint depth (c : Component) : nat :=
  match c with
  | Coffee => 0
  | MilkDecorator coffee | SugarDecorator coffee => S (depth coffee)
  end.

End Decorator.

(** ** Composite *)

Module Composite.

Record Leaf : Type := { name : string }.

(** [leaf.getName()] *)
Definition getName (l : Leaf) : string := name l.

(** An object handed to [add]: a leaf, or (nothing forbids it) another
    composite, which has no [getName] method. *)
#[local] Unset Elimination Schemes.
Inductive Component : Type :=
| ALeaf (l : Leaf)
| AComposite (children : list Component).
#[local] Set Elimination Schemes.

Record Composite : Type := { children : list Component }.

Definition is_leaf (child : Component) : Prop :=
  match child with
  | ALeaf _ => True
  | AComposite _ => False
  end.

(** [new Composite()] *)
Definition new : Composite := {| children := [] |}.

(** [c.add(child)]: [push] on the array of children. *)
Definition add (child : Component) (c : Composite) : Composite :=
  {| children := children c ++ [child] |}.

(** [child.getName()] on a child of either kind. *)
Definition child_getName (child : Component) : completion string :=
  match child with
  | ALeaf l => Normal (getName l)
  | AComposite _ => Throw (TypeError "child.getName is not a function")
  end.

(** [Array.prototype.map] with a callback that may throw: left to right,
    the first exception ends it. *)
Fixpoint array_map {A B} (f : A -> completion B) (xs : list A) : completion (list B) :=
  match xs with
  | [] => Normal []
  | x :: xs' =>
      match f x with
      | Throw e => Throw e
      | Normal y =>
          match array_map f xs' with
          | Throw e => Throw e
          | Normal ys => Normal (y :: ys)
          end
      end
  end.

(** [c.getNames()] *)
Definition getNames (c : Composite) : completion (list string) :=
  array_map child_getName (children c).

(** The composite after [add] was called with every element of [cs], in
    that order, on a new composite. *)
Definition build (cs : list Component) : Composite :=
  foldl (fun c child => add child c) new cs.

End Composite.

(** ** Observer *)

Module Observer.

(** The lines written by [console.log], oldest first. *)
Definition console := list string.

Record Observer : Type := { name : string }.

(** The template literal [`${this.name} received: ${message}`]. *)
Definition received (message : string) (o : Observer) : string :=
  name o +:+ " received: " +:+ message.

(** [observer.update(message)]: [console.log] of that line. *)
Definition update (o : Observer) (message : string) : js console unit :=
  modify (fun out => out ++ [received message o]).

Record Subject : Type := { observers : list Observer }.

(** [new Subject()] *)
Definition new : Subject := {| observers := [] |}.

(** [s.addObserver(observer)]: [push], nothing else. *)
Definition addObserver (observer : Observer) (s : Subject) : Subject :=
  {| observers := observers s ++ [observer] |}.

(** [Array.prototype.forEach]: the callback on every entry, first to
    last; an exception ends the loop and reaches the caller. *)
Fixpoint forEach {S A} (f : A -> js S unit) (xs : list A) : js S unit :=
  match xs with
  | [] => ret tt
  | x :: xs' => (f x ;; forEach f xs')%js
  end.

(** [s.notifyObservers(message)] *)
Definition notifyObservers (message : string) (s : Subject) : js console unit :=
  forEach (fun observer => update observer message) (observers s).

End Observer.

(** ** Chain of responsibility *)

Module Chain.

(** The class of a handler object decides which [handle] it runs. *)
Inductive class : Type :=
| BaseHandler
| LowLevelHandler
| MediumLevelHandler
| HighLevelHandler.

(** A handler: its class and the field [nextHandler] ([None] is [null],
    the default of the constructor). *)
#[local] Unset Elimination Schemes.
Inductive Handler : Type :=
| new (cls : class) (nextHandler : option Handler).
#[local] Set Elimination Schemes.

Definition class_of (h : Handler) : class :=
  match h with new cls _ => cls end.

Definition nextHandler (h : Handler) : option Handler :=
  match h with new _ nxt => nxt end.

(** The part of [handle] a class writes before [super.handle(request)]:
    [Some r] is [return r], [None] falls through to the call of [super].
    The base class has no such part. *)
Definition own_handle (cls : class) (request : string) : option string :=
  match cls with
  | BaseHandler => None
  | LowLevelHandler =>
      if String.eqb request "low" then Some "Handled by LowLevelHandler" else None
  | MediumLevelHandler =>
      if String.eqb request "medium" then Some "Handled by MediumLevelHandler" else None
  | HighLevelHandler =>
      if String.eqb request "high" then Some "Handled by HighLevelHandler" else None
  end.

Definition unhandled : string := "No handler available for this request.".

(** [h.handle(request)], together with the handlers whose [handle] ran,
    in call order.  [Handler.prototype.handle] forwards to [nextHandler]
    when there is one and returns the fixed string otherwise. *)
Fixpoint handle_calls (h : Handler) (request : string) : string * list Handler :=
  match h with
  | new cls nxt =>
      match own_handle cls request with
      | Some r => (r, [h])
      | None =>
          match nxt with
          | Some n => let '(r, calls) := handle_calls n request in (r, h :: calls)
          | None => (unhandled, [h])
          end
      end
  end.

Definition handle (h : Handler) (request : string) : string :=
  fst (handle_calls h request).

Definition calls (h : Handler) (request : string) : list Handler :=
  snd (handle_calls h request).

(** The predicate of each concrete handler and the string it answers
    with: [takes cls request r]. *)
Inductive takes : class -> string -> string -> Prop :=
| takes_low : takes LowLevelHandler "low" "Handled by LowLevelHandler"
| takes_medium : takes MediumLevelHandler "medium" "Handled by MediumLevelHandler"
| takes_high : takes HighLevelHandler "high" "Handled by HighLevelHandler".

Definition declines (cls : class) (request : string) : Prop :=
  forall r, ~ takes cls request r.

(** Induction along the [nextHandler] links. *)
Fixpoint Handler_chain_ind (P : Handler -> Prop)
    (Hlast : forall cls, P (new cls None))
    (Hlink : forall cls n, P n -> P (new cls (Some n)))
    (h : Handler) : P h :=
  match h with
  | new cls None => Hlast cls
  | new cls (Some n) => Hlink cls n (Handler_chain_ind P Hlast Hlink n)
  end.

(** The classes met along the links, first to last. *)
Fixpoint chain (h : Handler) : list class :=
  match h with
  | new cls nxt => cls :: match nxt with Some n => chain n | None => [] end
  end.

(** The reading of the design notes: an ordered list of handlers tried
    in sequence by a dispatcher, to compare [handle] with. *)
Fixpoint dispatch (cs : list class) (request : string) : string :=
  match cs with
  | [] => unhandled
  | cls :: cs' =>
      match own_handle cls request with
      | Some r => r
      | None => dispatch cs' request
      end
  end.

(** The chain the script sets up. *)
Definition highLevelHandler : Handler := new HighLevelHandler None.
Definition mediumLevelHandler : Handler := new MediumLevelHandler (Some highLevelHandler).
Definition lowLevelHandler : Handler := new LowLevelHandler (Some mediumLevelHandler).

End Chain.

(** ** Iterator *)

Module Iterator.

(** An iterator object: the array it was given and its cursor. *)
Record Iterator : Type := { collection : loc; index : nat }.

(** A collection object: its field [items] never changes, the array
    behind it does. *)
Record Collection : Type := { items : loc }.

Section Elements.

(** The elements, and what indexing past the end of an array yields. *)
Context {A : Type} (undefined : A).

(** The store: the arrays and the iterator objects allocated so far. *)
Record store : Type := {
  arrays : list (list A);
  iterators : list Iterator
}.

Definition empty : store := {| arrays := []; iterators := [] |}.

Definition set_arrays (f : list (list A) -> list (list A)) (s : store) : store :=
  {| arrays := f (arrays s); iterators := iterators s |}.

Definition set_iterators (f : list Iterator -> list Iterator) (s : store) : store :=
  {| arrays := arrays s; iterators := f (iterators s) |}.

(** Following a reference; one that was never allocated has no
    counterpart in JavaScript and is made an error. *)
Definition array_at (a : loc) : js store (list A) := fun s =>
  match arrays s !! a with
  | Some xs => (Normal xs, s)
  | None => (Throw (TypeError "dangling reference"), s)
  end.

Definition iterator_at (it : loc) : js store Iterator := fun s =>
  match iterators s !! it with
  | Some i => (Normal i, s)
  | None => (Throw (TypeError "dangling reference"), s)
  end.

(** [new Iterator(collection)] *)
Definition new_Iterator (collection : loc) : js store loc := fun s =>
  (Normal (length (iterators s)),
   set_iterators (fun its => its ++ [{| collection := collection; index := 0 |}]) s).

(** The store after the cursor of the iterator object at [it], whose
    fields were [i], moved one step. *)
Definition advance (it : loc) (i : Iterator) (s : store) : store :=
  set_iterators <[it := {| collection := collection i; index := S (index i) |}]> s.

(** [it.hasNext()] *)
Definition hasNext (it : loc) : js store bool :=
  (i <- iterator_at it ;;
   xs <- array_at (collection i) ;;
   ret (index i <? length xs)%nat)%js.

(** [it.next()]: [this.collection[this.index++]] under the guard. *)
Definition next (it : loc) : js store A :=
  (more <- hasNext it ;;
   if more : bool then
     i <- iterator_at it ;;
     xs <- array_at (collection i) ;;
     modify (advance it i) ;;
     ret (default undefined (xs !! index i))
   else throw (Error "No more elements"))%js.

(** [new Collection()] *)
Definition new_Collection : js store Collection := fun s =>
  (Normal {| items := length (arrays s) |}, set_arrays (fun arrs => arrs ++ [[]]) s).

(** [c.add(item)]: [push] on the array itself. *)
Definition add (c : Collection) (item : A) : js store unit :=
  (xs <- array_at (items c) ;;
   modify (set_arrays <[items c := xs ++ [item]]>))%js.

(** [c.getIterator()]: the iterator is given [this.items] itself. *)
Definition getIterator (c : Collection) : js store loc :=
  new_Iterator (items c).

(** The loop of the script, [while (it.hasNext()) out.push(it.next())],
    with a bound on the number of rounds; [None] when the bound is hit. *)
Fixpoint drain (fuel : nat) (it : loc) : js store (option (list A)) :=
  match fuel with
  | O => ret None
  | S fuel' =>
      (more <- hasNext it ;;
       if more : bool then
         x <- next it ;;
         rest <- drain fuel' it ;;
         ret (cons x <$> rest)
       else ret (Some []))%js
  end.

(** One round of a caller that looks before it leaps and then calls
    [next()] whatever the answer was. *)
Definition probe (it : loc) : js store (bool * completion A) :=
  (more <- hasNext it ;; r <- attempt (next it) ;; ret (more, r))%js.

(** [add] for each element in turn. *)
Fixpoint add_all (c : Collection) (xs : list A) : js store unit :=
  match xs with
  | [] => ret tt
  | x :: xs' => (add c x ;; add_all c xs')%js
  end.

(** A caller that takes an iterator, then adds [ys] to the collection,
    then runs the loop on the iterator. *)
Definition traverse_after (c : Collection) (ys : list A) (fuel : nat)
  : js store (option (list A)) :=
  (it <- getIterator c ;; add_all c ys ;; drain fuel it)%js.

(** A caller that fills a new collection with [xs], takes an iterator
    and probes it [n] times. *)
Definition probe_fresh (xs : list A) (n : nat)
  : js store (list (completion (bool * completion A))) :=
  (c <- new_Collection ;;
   add_all c xs ;;
   it <- getIterator c ;;
   fun s => let '(rs, s') := times n (probe it) s in (Normal rs, s'))%js.

End Elements.

End Iterator.

(** ** Command *)

Module Command.

Definition console := list string.

Definition log (line : string) : js console unit :=
  modify (fun out => out ++ [line]).

(** The receivers have no fields. *)
Inductive Light : Type := new_Light.
Inductive TV : Type := new_TV.

Definition Light_turnOn (_ : Light) : js console unit := log "Light is ON".
Definition Light_turnOff (_ : Light) : js console unit := log "Light is OFF".
Definition TV_turnOn (_ : TV) : js console unit := log "TV is ON".
Definition TV_turnOff (_ : TV) : js console unit := log "TV is OFF".

(** A command object: the base class or one of the four concrete ones
    with its receiver. *)
Inductive Command : Type :=
| BaseCommand
| LightOnCommand (light : Light)
| LightOffCommand (light : Light)
| TVOnCommand (tv : TV)
| TVOffCommand (tv : TV).

(** [command.execute()] *)
Definition execute (c : Command) : js console unit :=
  match c with
  | BaseCommand => throw (Error "Execute method must be implemented")
  | LightOnCommand light => Light_turnOn light
  | LightOffCommand light => Light_turnOff light
  | TVOnCommand tv => TV_turnOn tv
  | TVOffCommand tv => TV_turnOff tv
  end.

(** The invoker; [None] is the [null] the constructor stores. *)
Record RemoteControl : Type := { command : option Command }.

Definition new : RemoteControl := {| command := None |}.

Definition setCommand (c : Command) (_ : RemoteControl) : RemoteControl :=
  {| command := Some c |}.

(** [remote.pressButton()]: [this.command.execute()]. *)
Definition pressButton (r : RemoteControl) : js console unit :=
  match command r with
  | None => throw (TypeError "Cannot read properties of null (reading 'execute')")
  | Some c => execute c
  end.

(** What a command writes when it runs on an empty console. *)
Definition output_of (c : Command) : console := snd (execute c []).

(** A caller that, for each command in turn, plugs it into the remote
    and presses the button; the remote it ends with is returned. *)
Fixpoint press_all (cs : list Command) (r : RemoteControl) : js console RemoteControl :=
  match cs with
  | [] => ret r
  | c :: cs' => (pressButton (setCommand c r) ;; press_all cs' (setCommand c r))%js
  end.

End Command.

(** * Properties *)

(** Unfolding of the plumbing of [js]. *)
Ltac js_step := unfold bind, ret, throw, gets, modify, attempt; simpl.

(** ** Singleton *)

Section SingletonFacts.

Import Singleton.
Variable random : nat -> Q.

Lemma constructor_fresh (w : world) :
  instance w = None ->
  constructor random w
  = (Normal (length (heap w)),
     {| heap := heap w ++ [{| value := random (draws w) |}];
        instance := None; draws := S (draws w) |}).
Proof.
  intros Hnone. unfold constructor. js_step. rewrite Hnone.
  unfold alloc_random. by rewrite Hnone.
Qed.

Lemma getInstance_first (w : world) :
  instance w = None ->
  getInstance random w = (Normal (Some (length (heap w))), created random w).
Proof.
  intros Hnone. unfold getInstance. js_step. rewrite Hnone.
  pose proof (constructor_fresh w Hnone) as Hnew. js_step.
  unfold bind. rewrite Hnew. reflexivity.
Qed.

Lemma getInstance_again (w : world) (l : loc) :
  instance w = Some l ->
  getInstance random w = (Normal (Some l), w).
Proof.
  intros Hsome. unfold getInstance. js_step.
  rewrite Hsome. simpl. by rewrite Hsome.
Qed.

Lemma access_again (w : world) (l : loc) (o : obj) :
  instance w = Some l -> heap w !! l = Some o ->
  access random w = (Normal (Some l, value o), w).
Proof.
  intros Hsome Hobj. unfold access, bind.
  rewrite (getInstance_again w l Hsome). simpl. by rewrite Hobj.
Qed.

Lemma created_lookup (w : world) :
  heap (created random w) !! length (heap w)
  = Some {| value := random (draws w) |}.
Proof. simpl. by rewrite lookup_app_r, Nat.sub_diag by lia. Qed.

Lemma access_first (w : world) :
  instance w = None ->
  access random w
  = (Normal (Some (length (heap w)), random (draws w)), created random w).
Proof.
  intros Hnone. unfold access, bind.
  rewrite (getInstance_first w Hnone).
  unfold get_value. by rewrite created_lookup.
Qed.

Lemma times_access_again (n : nat) (w : world) (l : loc) (o : obj) :
  instance w = Some l -> heap w !! l = Some o ->
  times n (access random) w = (replicate n (Normal (Some l, value o)), w).
Proof.
  intros Hsome Hobj. induction n as [|n IH]; [done|].
  simpl. rewrite (access_again w l o Hsome Hobj), IH. reflexivity.
Qed.

(** The guard of the constructor looks at the slot only: as long as
    [getInstance()] has not run, [new Singleton()] succeeds each time and
    builds distinct objects that the slot does not know. *)
Lemma constructor_before_getInstance :
  times 2 (constructor random) boot
  = ([Normal 0; Normal 1],
     {| heap := [{| value := random 0 |}; {| value := random 1 |}];
        instance := None; draws := 2 |}).
Proof. reflexivity. Qed.

(** Whatever mix of [new Singleton()] and [getInstance()] ran before,
    the slot refers to an allocated object. *)
Lemma well_formed_boot : well_formed boot.
Proof. intros l Hsome. discriminate. Qed.

Lemma well_formed_constructor (w : world) :
  well_formed w -> well_formed (snd (constructor random w)).
Proof.
  intros Hwf. destruct (instance w) as [l|] eqn:Hslot.
  - unfold constructor, bind, gets, throw. by rewrite Hslot.
  - rewrite (constructor_fresh w Hslot). intros l Hsome. discriminate.
Qed.

Lemma well_formed_getInstance (w : world) :
  well_formed w -> well_formed (snd (getInstance random w)).
Proof.
  intros Hwf. destruct (instance w) as [l|] eqn:Hslot.
  - by rewrite (getInstance_again w l Hslot).
  - rewrite (getInstance_first w Hslot). intros l [= <-].
    rewrite created_lookup. by eexists.
Qed.

(** From any such store that already has its instance, every access
    returns it and reads the same value, and the store stays put. *)
Lemma times_access_stable (n : nat) (w : world) (l : loc) :
  well_formed w -> instance w = Some l ->
  exists v, times n (access random) w = (replicate n (Normal (Some l, v)), w).
Proof.
  intros Hwf Hsome. destruct (Hwf l Hsome) as [o Hobj].
  exists (value o). by apply times_access_again.
Qed.

End SingletonFacts.

(** C1.  Starting where no instance exists yet, [N] accesses through
    [Singleton.getInstance()] all return the same reference, the one of
    the object allocated by the first call (it is not in the heap before),
    and read the same [value] from it, a number of [[0,1)] because
    [Math.random()] only returns such numbers. *)
Theorem getInstance_shared_instance
    (random : nat -> Q)
    (Hrange : forall k, (0 <= random k)%Q /\ (random k < 1)%Q)
    (N : nat) (w : Singleton.world)
    (Hnone : Singleton.instance w = None) :
  let l := length (Singleton.heap w) in
  let v := random (Singleton.draws w) in
  fst (times N (Singleton.access random) w) = replicate N (Normal (Some l, v))
  /\ Singleton.heap w !! l = None
  /\ (0 < N ->
      snd (times N (Singleton.access random) w) = Singleton.created random w)
  /\ (0 <= v)%Q /\ (v < 1)%Q.
Proof.
  intros l v. split; [|split; [|split]].
  - destruct N as [|N]; [done|]. simpl.
    rewrite (access_first random w Hnone).
    rewrite (times_access_again random N _ l {| Singleton.value := v |});
      [done|done|apply created_lookup].
  - apply lookup_ge_None. unfold l. lia.
  - intros HN. destruct N as [|N]; [lia|]. simpl.
    rewrite (access_first random w Hnone).
    rewrite (times_access_again random N _ l {| Singleton.value := v |});
      [done|done|apply created_lookup].
  - apply Hrange.
Qed.

Lemma getInstance_shared_instance_witness :
  (forall k : nat, (0 <= (fun _ => 1 # 2) k)%Q /\ ((fun _ => 1 # 2) k < 1)%Q)
  /\ Singleton.instance Singleton.boot = None
  /\ fst (times 3 (Singleton.access (fun _ => 1 # 2)) Singleton.boot)
     = replicate 3 (Normal (Some 0, 1 # 2)).
Proof.
  assert (forall k : nat, (0 <= (fun _ => 1 # 2) k)%Q /\ ((fun _ => 1 # 2) k < 1)%Q)
    as Hrange by (intros k; split; [discriminate|reflexivity]).
  split; [exact Hrange|]. split; [reflexivity|].
  exact (proj1 (getInstance_shared_instance (fun _ => 1 # 2) Hrange 3
                  Singleton.boot eq_refl)).
Defined.

(** C6.  Once the slot holds an instance, [new Singleton()] throws the
    error of the constructor and leaves the whole store, the shared
    instance included, as it was; [getInstance()] still returns it. *)
Theorem constructor_rejects_second
    (random : nat -> Q) (w : Singleton.world) (l : loc)
    (Hsome : Singleton.instance w = Some l) :
  Singleton.constructor random w
  = (Throw (Error "Cannot instantiate directly. Use Singleton.getInstance() instead."), w)
  /\ Singleton.getInstance random (snd (Singleton.constructor random w))
     = (Normal (Some l), w).
Proof.
  assert (Singleton.constructor random w
          = (Throw (Error "Cannot instantiate directly. Use Singleton.getInstance() instead."), w))
    as Hthrow.
  { unfold Singleton.constructor. js_step. by rewrite Hsome. }
  split; [exact Hthrow|].
  rewrite Hthrow. simpl. by apply getInstance_again.
Qed.

Lemma constructor_rejects_second_witness :
  let w := snd (Singleton.getInstance (fun _ => 1 # 2) Singleton.boot) in
  Singleton.instance w = Some 0
  /\ Singleton.constructor (fun _ => 1 # 2) w
     = (Throw (Error "Cannot instantiate directly. Use Singleton.getInstance() instead."), w).
Proof.
  intros w. split; [reflexivity|].
  exact (proj1 (constructor_rejects_second (fun _ => 1 # 2) w 0 eq_refl)).
Defined.

(** ** Factory method *)

Lemma getVehicle_other (k : string) (h : Factory.heap) :
  k <> "car" -> k <> "bike" ->
  Factory.getVehicle k h = (Throw (Error "Unknown vehicle type"), h).
Proof.
  intros Hcar Hbike. unfold Factory.getVehicle.
  apply String.eqb_neq in Hcar, Hbike. by rewrite Hcar, Hbike.
Qed.

Lemma getVehicle_car (h : Factory.heap) :
  Factory.getVehicle "car" h = (Normal (length h), h ++ [Factory.Car]).
Proof. reflexivity. Qed.

Lemma getVehicle_bike (h : Factory.heap) :
  Factory.getVehicle "bike" h = (Normal (length h), h ++ [Factory.Bike]).
Proof. reflexivity. Qed.

Lemma create_new (c : Factory.class) (h : Factory.heap) :
  Factory.create (length h) (h ++ [c]) = (Factory.create_body c, h ++ [c]).
Proof.
  unfold Factory.create, Factory.heap in *.
  by rewrite lookup_app_r, Nat.sub_diag by lia.
Qed.

(** C5.  [getVehicle("car")] allocates a new object of class [Car], whose
    [create()] returns "Car created"; [getVehicle("bike")] a new [Bike],
    whose [create()] returns "Bike created"; every other key throws the
    error of the [default] branch and allocates nothing. *)
Theorem getVehicle_by_key (k : string) (h : Factory.heap) :
  (k = "car" ->
   Factory.getVehicle k h = (Normal (length h), h ++ [Factory.Car])
   /\ h !! length h = None
   /\ (v <- Factory.getVehicle k ;; Factory.create v)%js h
      = (Normal "Car created", h ++ [Factory.Car]))
  /\ (k = "bike" ->
      Factory.getVehicle k h = (Normal (length h), h ++ [Factory.Bike])
      /\ h !! length h = None
      /\ (v <- Factory.getVehicle k ;; Factory.create v)%js h
         = (Normal "Bike created", h ++ [Factory.Bike]))
  /\ (k <> "car" -> k <> "bike" ->
      Factory.getVehicle k h = (Throw (Error "Unknown vehicle type"), h)).
Proof.
  assert (h !! length h = None) as Hfresh by (apply lookup_ge_None; lia).
  split; [|split].
  - intros ->. split; [apply getVehicle_car|]. split; [exact Hfresh|].
    unfold bind. by rewrite getVehicle_car, create_new.
  - intros ->. split; [apply getVehicle_bike|]. split; [exact Hfresh|].
    unfold bind. by rewrite getVehicle_bike, create_new.
  - apply getVehicle_other.
Qed.

Lemma getVehicle_by_key_witness :
  "truck" <> "car" /\ "truck" <> "bike"
  /\ Factory.getVehicle "truck" [Factory.Car]
     = (Throw (Error "Unknown vehicle type"), [Factory.Car]).
Proof.
  assert ("truck" <> "car") as Hcar by discriminate.
  assert ("truck" <> "bike") as Hbike by discriminate.
  split; [exact Hcar|]. split; [exact Hbike|].
  exact (proj2 (proj2 (getVehicle_by_key "truck" [Factory.Car])) Hcar Hbike).
Defined.

(** ** Decorator *)

Section DecoratorFacts.

Import Decorator.
Local Open Scope Z_scope.

Lemma cost_wrap (d : layer) (c : Component) :
  cost (wrap d c) = cost c + increment d.
Proof. by destruct d. Qed.

Lemma cost_nest (ds : list layer) (base : Component) :
  cost (nest ds base) = cost base + increments ds.
Proof.
  induction ds as [|d ds IH]; simpl.
  - lia.
  - fold (nest ds base). rewrite cost_wrap, IH. lia.
Qed.

(** Any two orders of the same decorators cost the same. *)
Lemma increments_perm (ds ds' : list layer) :
  ds ≡ₚ ds' -> increments ds = increments ds'.
Proof.
  induction 1 as [|d ds ds' _ IH|d d' ds|ds1 ds2 ds3 _ IH1 _ IH2]; simpl.
  - reflexivity.
  - by rewrite IH.
  - lia.
  - by rewrite IH1.
Qed.

Lemma cost_nest_perm (ds ds' : list layer) (base : Component) :
  ds ≡ₚ ds' -> cost (nest ds base) = cost (nest ds' base).
Proof. intros Hp. by rewrite !cost_nest, (increments_perm ds ds' Hp). Qed.

(** The costs the script can build are integers between [5 + depth] and
    [5 + 2 * depth]: far below [2^53] for any nesting that fits in
    memory, so the additions of the script are exact. *)
Lemma cost_bound (c : Component) :
  5 + Z.of_nat (depth c) <= cost c <= 5 + 2 * Z.of_nat (depth c).
Proof. induction c; simpl depth; simpl cost; lia. Qed.

End DecoratorFacts.

(** C4.  A milk decorator costs its component plus 2, a sugar decorator
    its component plus 1; [N] nested decorators cost the base plus the sum
    of their [N] increments; milk-then-sugar and sugar-then-milk cost the
    same around every base; and on the base coffee: 5, 7 with milk, 8 with
    both in either order, the values in between being 7 and 6. *)
Theorem decorator_costs :
  (forall c, Decorator.cost (Decorator.MilkDecorator c) = Decorator.cost c + 2)%Z
  /\ (forall c, Decorator.cost (Decorator.SugarDecorator c) = Decorator.cost c + 1)%Z
  /\ (forall ds base,
        Decorator.cost (Decorator.nest ds base)
        = Decorator.cost base + Decorator.increments ds)%Z
  /\ (forall base,
        Decorator.cost (Decorator.SugarDecorator (Decorator.MilkDecorator base))
        = Decorator.cost (Decorator.MilkDecorator (Decorator.SugarDecorator base)))
  /\ Decorator.cost Decorator.Coffee = 5%Z
  /\ Decorator.cost (Decorator.MilkDecorator Decorator.Coffee) = 7%Z
  /\ Decorator.cost (Decorator.SugarDecorator (Decorator.MilkDecorator Decorator.Coffee)) = 8%Z
  /\ Decorator.cost (Decorator.MilkDecorator (Decorator.SugarDecorator Decorator.Coffee)) = 8%Z
  /\ Decorator.cost (Decorator.MilkDecorator Decorator.Coffee)
     <> Decorator.cost (Decorator.SugarDecorator Decorator.Coffee).
Proof.
  split; [reflexivity|]. split; [reflexivity|].
  split; [exact cost_nest|].
  split; [intros base; simpl; lia|].
  repeat split. discriminate.
Qed.

(** ** Composite *)

Section CompositeFacts.

Import Composite.

Lemma children_foldl_add (cs : list Component) (c : Composite) :
  children (foldl (fun c child => add child c) c cs) = children c ++ cs.
Proof.
  revert c. induction cs as [|child cs IH]; intros c; simpl.
  - by rewrite app_nil_r.
  - rewrite IH. simpl. by rewrite <- app_assoc.
Qed.

Lemma children_build (cs : list Component) : children (build cs) = cs.
Proof. unfold build. by rewrite children_foldl_add. Qed.

Lemma array_map_leaves (ls : list Leaf) :
  array_map child_getName (ALeaf <$> ls) = Normal (name <$> ls).
Proof.
  induction ls as [|l ls IH]; [done|].
  cbn [fmap list_fmap array_map child_getName] in *. by rewrite IH.
Qed.

(** A composite among the children makes [getNames()] throw: it has no
    [getName]. The names collected before it are lost. *)
Lemma getNames_nested (ls : list Leaf) (inner rest : list Component) :
  getNames (build ((ALeaf <$> ls) ++ AComposite inner :: rest))
  = Throw (TypeError "child.getName is not a function").
Proof.
  unfold getNames. rewrite children_build.
  induction ls as [|l ls IH]; [done|].
  cbn [fmap list_fmap app array_map child_getName] in *. by rewrite IH.
Qed.

End CompositeFacts.

(** C8, as the claim states it, fails.  [add] takes any child.  On the
    composite built by [add(new Leaf("Leaf 1"))] and then
    [add(new Composite())], [getNames()] does not return a list of names:
    the second child has no [getName] and the call throws. *)
Lemma getNames_every_composite_counterexample :
  let inner := Composite.AComposite (Composite.children Composite.new) in
  let c := Composite.build
             [Composite.ALeaf {| Composite.name := "Leaf 1" |}; inner] in
  c = Composite.add inner
        (Composite.add (Composite.ALeaf {| Composite.name := "Leaf 1" |})
           Composite.new)
  /\ Composite.getNames c = Throw (TypeError "child.getName is not a function")
  /\ (forall ns, Composite.getNames c <> Normal ns).
Proof.
  intros inner c. split; [reflexivity|]. split; [reflexivity|].
  intros ns. discriminate.
Qed.

(** C8, amended.  After [add] was called with the leaves [ls] in turn on
    a new composite, [getNames()] returns the names of [ls], in that
    order; a leaf's [getName()] returns the name it was built with; and
    with "Leaf 1" then "Leaf 2" the result is exactly
    ["Leaf 1"; "Leaf 2"]. *)
Theorem getNames_insertion_order :
  (forall ls : list Composite.Leaf,
     Composite.getNames (Composite.build (Composite.ALeaf <$> ls))
     = Normal (Composite.name <$> ls))
  /\ (forall n : string, Composite.getName {| Composite.name := n |} = n)
  /\ (let leaf1 := {| Composite.name := "Leaf 1" |} in
      let leaf2 := {| Composite.name := "Leaf 2" |} in
      Composite.getNames
        (Composite.add (Composite.ALeaf leaf2)
           (Composite.add (Composite.ALeaf leaf1) Composite.new))
      = Normal ["Leaf 1"; "Leaf 2"]).
Proof.
  split; [|split; reflexivity].
  intros ls. unfold Composite.getNames.
  rewrite children_build. apply array_map_leaves.
Qed.

(** ** Observer *)

Section ObserverFacts.

Import Observer.

Lemma forEach_update (message : string) (os : list Observer) (out : console) :
  forEach (fun o => update o message) os out
  = (Normal tt, out ++ (received message <$> os)).
Proof.
  revert out. induction os as [|o os IH]; intros out.
  - simpl. unfold ret. by rewrite app_nil_r.
  - cbn [forEach]. unfold bind, update at 1, modify.
    rewrite IH. by rewrite <- app_assoc.
Qed.

End ObserverFacts.

(** C9.  [addObserver] puts the observer at the end of the list whatever
    the list holds, so adding the same observer twice leaves it there
    twice; [notifyObservers(message)] runs [update(message)] once for
    every entry, first to last: the console gets one line per entry, in
    list order, and the call ends normally. *)
Theorem observers_notified_in_order :
  (forall (o : Observer.Observer) (s : Observer.Subject),
     Observer.observers (Observer.addObserver o s) = Observer.observers s ++ [o])
  /\ (forall (o : Observer.Observer) (s : Observer.Subject),
        Observer.observers (Observer.addObserver o (Observer.addObserver o s))
        = Observer.observers s ++ [o; o])
  /\ (forall (message : string) (s : Observer.Subject) (out : Observer.console),
        Observer.notifyObservers message s out
        = (Normal tt,
           out ++ ((fun o => Observer.name o +:+ " received: " +:+ message)
                     <$> Observer.observers s))).
Proof.
  split; [reflexivity|]. split.
  - intros o s. simpl. by rewrite <- app_assoc.
  - intros message s out. unfold Observer.notifyObservers.
    apply forEach_update.
Qed.

(** ** Chain of responsibility *)

Section ChainFacts.

Import Chain.

Lemma own_handle_takes (cls : class) (request r : string) :
  own_handle cls request = Some r <-> takes cls request r.
Proof.
  split.
  - destruct cls; simpl; [discriminate|..];
      case String.eqb_spec; try discriminate;
      intros -> [= <-]; constructor.
  - by inversion 1.
Qed.

Lemma own_handle_declines (cls : class) (request : string) :
  declines cls request -> own_handle cls request = None.
Proof.
  intros Hdec. destruct (own_handle cls request) as [r|] eqn:Hown; [|done].
  apply own_handle_takes in Hown. by destruct (Hdec r).
Qed.

Lemma handle_calls_takes (cls : class) (nxt : option Handler) (request r : string) :
  takes cls request r ->
  handle_calls (new cls nxt) request = (r, [new cls nxt]).
Proof.
  intros Htakes. apply own_handle_takes in Htakes.
  simpl. by rewrite Htakes.
Qed.

Lemma handle_calls_forward (cls : class) (n : Handler) (request : string) :
  declines cls request ->
  handle_calls (new cls (Some n)) request
  = (handle n request, new cls (Some n) :: calls n request).
Proof.
  intros Hdec. apply own_handle_declines in Hdec.
  unfold handle, calls. simpl. rewrite Hdec.
  by destruct (handle_calls n request).
Qed.

Lemma handle_calls_last (cls : class) (request : string) :
  declines cls request ->
  handle_calls (new cls None) request = (unhandled, [new cls None]).
Proof.
  intros Hdec. apply own_handle_declines in Hdec. simpl. by rewrite Hdec.
Qed.

(** [handle] walks the links exactly as a dispatcher walks the list of
    the classes along them. *)
Lemma handle_dispatch (h : Handler) (request : string) :
  handle h request = dispatch (chain h) request.
Proof.
  induction h as [cls|cls n IH] using Handler_chain_ind;
    unfold handle in *; simpl; destruct (own_handle cls request); try done.
  by destruct (handle_calls n request).
Qed.

(** The handler that is asked is the first whose [handle] runs. *)
Lemma calls_nonempty (h : Handler) (request : string) :
  exists rest, calls h request = h :: rest.
Proof.
  destruct h as [cls [n|]]; unfold calls; simpl;
    destruct (own_handle cls request); try by eexists.
  destruct (handle_calls n request). by eexists.
Qed.

End ChainFacts.

(** C3.  A handler whose test takes the request returns its own string
    and its [handle] is the only one that runs; a handler that declines
    forwards to its next handler when it has one, and returns "No handler
    available for this request." when it has none.  On the chain of the
    script, "low", "medium" and "high" are answered by the handler of that
    level and "unknown" gets the fixed string. *)
Theorem chain_handle :
  (forall cls nxt request r,
     Chain.takes cls request r ->
     Chain.handle (Chain.new cls nxt) request = r
     /\ Chain.calls (Chain.new cls nxt) request = [Chain.new cls nxt])
  /\ (forall cls n request,
        Chain.declines cls request ->
        Chain.handle (Chain.new cls (Some n)) request = Chain.handle n request
        /\ Chain.calls (Chain.new cls (Some n)) request
           = Chain.new cls (Some n) :: Chain.calls n request)
  /\ (forall cls request,
        Chain.declines cls request ->
        Chain.handle (Chain.new cls None) request
        = "No handler available for this request.")
  /\ Chain.handle Chain.lowLevelHandler "low" = "Handled by LowLevelHandler"
  /\ Chain.handle Chain.lowLevelHandler "medium" = "Handled by MediumLevelHandler"
  /\ Chain.handle Chain.lowLevelHandler "high" = "Handled by HighLevelHandler"
  /\ Chain.handle Chain.lowLevelHandler "unknown"
     = "No handler available for this request.".
Proof.
  split; [|split; [|split]].
  - intros cls nxt request r Htakes. unfold Chain.handle, Chain.calls.
    by rewrite (handle_calls_takes cls nxt request r Htakes).
  - intros cls n request Hdec. unfold Chain.handle at 1, Chain.calls at 1.
    by rewrite (handle_calls_forward cls n request Hdec).
  - intros cls request Hdec. unfold Chain.handle.
    by rewrite (handle_calls_last cls request Hdec).
  - repeat split.
Qed.

Lemma chain_handle_witness :
  Chain.takes Chain.MediumLevelHandler "medium" "Handled by MediumLevelHandler"
  /\ Chain.declines Chain.HighLevelHandler "unknown"
  /\ Chain.handle (Chain.new Chain.MediumLevelHandler (Some Chain.highLevelHandler))
       "medium" = "Handled by MediumLevelHandler"
  /\ Chain.handle (Chain.new Chain.HighLevelHandler None) "unknown"
     = "No handler available for this request.".
Proof.
  assert (Chain.declines Chain.HighLevelHandler "unknown") as Hdec
    by (intros r Htakes; inversion Htakes).
  split; [constructor|]. split; [exact Hdec|]. split.
  - exact (proj1 (proj1 chain_handle Chain.MediumLevelHandler
                    (Some Chain.highLevelHandler) "medium" _ Chain.takes_medium)).
  - exact (proj1 (proj2 (proj2 chain_handle)) Chain.HighLevelHandler "unknown" Hdec).
Defined.

(** ** Iterator *)

Section IteratorFacts.

Import Iterator.
Context {A : Type} (undefined : A).
Implicit Types (s : store (A:=A)) (i : Iterator) (xs ys : list A).

Lemma hasNext_at s it i xs :
  iterators s !! it = Some i -> arrays s !! collection i = Some xs ->
  hasNext it s = (Normal (index i <? length xs)%nat, s).
Proof.
  intros Hit Harr. unfold hasNext, bind, iterator_at, array_at, ret.
  by rewrite Hit, Harr.
Qed.

Lemma next_in_range s it i xs x :
  iterators s !! it = Some i -> arrays s !! collection i = Some xs ->
  xs !! index i = Some x ->
  next undefined it s = (Normal x, advance it i s).
Proof.
  intros Hit Harr Hx. unfold next, bind at 1.
  rewrite (hasNext_at s it i xs Hit Harr).
  assert ((index i <? length xs)%nat = true) as ->
    by (apply Nat.ltb_lt; by eapply lookup_lt_Some).
  unfold bind, iterator_at, array_at, modify, ret.
  by rewrite Hit, Harr, Hx.
Qed.

Lemma next_past_end s it i xs :
  iterators s !! it = Some i -> arrays s !! collection i = Some xs ->
  length xs <= index i ->
  next undefined it s = (Throw (Error "No more elements"), s).
Proof.
  intros Hit Harr Hge. unfold next, bind at 1.
  rewrite (hasNext_at s it i xs Hit Harr).
  by apply Nat.ltb_ge in Hge as ->.
Qed.

Lemma advance_iterator s it i :
  iterators s !! it = Some i ->
  iterators (advance it i s) !! it
  = Some {| collection := collection i; index := S (index i) |}.
Proof.
  intros Hit. simpl. apply list_lookup_insert_eq. by eapply lookup_lt_Some.
Qed.

(** The loop yields what lies between the cursor and the end of the
    array as it is when the loop runs, and it ends once it has that many
    rounds and one more. *)
Lemma drain_from (fuel : nat) s it i xs :
  iterators s !! it = Some i -> arrays s !! collection i = Some xs ->
  length xs - index i < fuel ->
  exists s',
    drain undefined fuel it s = (Normal (Some (drop (index i) xs)), s')
    /\ arrays s' = arrays s.
Proof.
  revert s i. induction fuel as [|fuel IH]; intros s i Hit Harr Hfuel; [lia|].
  cbn [drain]. unfold bind at 1. rewrite (hasNext_at s it i xs Hit Harr).
  destruct (Nat.ltb_spec (index i) (length xs)) as [Hlt|Hge].
  - destruct (lookup_lt_is_Some_2 xs (index i) Hlt) as [x Hx].
    unfold bind at 1. rewrite (next_in_range s it i xs x Hit Harr Hx).
    destruct (IH (advance it i s) {| collection := collection i; index := S (index i) |})
      as (s' & Hdrain & Hsame).
    + by apply advance_iterator.
    + exact Harr.
    + simpl. lia.
    + exists s'. split; [|exact Hsame].
      unfold bind, ret. rewrite Hdrain. simpl.
      by rewrite (drop_S xs x (index i) Hx).
  - exists s. split; [|done]. unfold ret. by rewrite drop_ge.
Qed.

Lemma add_at s (c : Collection) xs (x : A) :
  arrays s !! items c = Some xs ->
  add c x s = (Normal tt, set_arrays <[items c := xs ++ [x]]> s).
Proof. intros Harr. unfold add, bind, array_at, modify. by rewrite Harr. Qed.

Lemma add_all_at (ys : list A) s (c : Collection) xs :
  arrays s !! items c = Some xs ->
  exists s',
    add_all c ys s = (Normal tt, s')
    /\ arrays s' !! items c = Some (xs ++ ys)
    /\ iterators s' = iterators s.
Proof.
  revert s xs. induction ys as [|y ys IH]; intros s xs Harr.
  - exists s. by rewrite app_nil_r.
  - cbn [add_all]. unfold bind. rewrite (add_at s c xs y Harr).
    destruct (IH (set_arrays <[items c := xs ++ [y]]> s) (xs ++ [y]))
      as (s' & Hrun & Harr' & Hits).
    + simpl. apply list_lookup_insert_eq. by eapply lookup_lt_Some.
    + exists s'. rewrite Hrun. split; [done|].
      split; [by rewrite <- app_assoc in Harr'|exact Hits].
Qed.

(** Probing an iterator once per remaining element and once more. *)
Lemma times_probe (n : nat) s it i xs :
  iterators s !! it = Some i -> arrays s !! collection i = Some xs ->
  n = length xs - index i ->
  fst (times (S n) (probe undefined it) s)
  = ((fun x => Normal (true, Normal x)) <$> drop (index i) xs)
    ++ [Normal (false, Throw (Error "No more elements"))].
Proof.
  revert s i. induction n as [|n IH]; intros s i Hit Harr Hn.
  - cbn [times]. unfold probe, bind, attempt, ret.
    rewrite (hasNext_at s it i xs Hit Harr).
    rewrite (next_past_end s it i xs Hit Harr) by lia.
    assert ((index i <? length xs)%nat = false) as -> by (apply Nat.ltb_ge; lia).
    by rewrite drop_ge by lia.
  - assert (index i < length xs) as Hlt by lia.
    destruct (lookup_lt_is_Some_2 xs (index i) Hlt) as [x Hx].
    specialize (IH (advance it i s)
                  {| collection := collection i; index := S (index i) |}
                  (advance_iterator s it i Hit) Harr ltac:(simpl; lia)).
    change (times (S (S n)) (probe undefined it) s)
      with (let '(c, s') := probe undefined it s in
            let '(cs, s'') := times (S n) (probe undefined it) s' in
            (c :: cs, s'')).
    unfold probe at 1, bind, attempt, ret.
    rewrite (hasNext_at s it i xs Hit Harr).
    rewrite (next_in_range s it i xs x Hit Harr Hx).
    apply Nat.ltb_lt in Hlt as ->.
    destruct (times (S n) (probe undefined it) (advance it i s)) as [cs s''].
    simpl in IH |- *. rewrite IH.
    by rewrite (drop_S xs x (index i) Hx).
Qed.

End IteratorFacts.

(** C2.  For an iterator object with fields [i] over the array [xs]:
    [hasNext()] answers [true] exactly when the cursor is below the length
    of [xs] and changes nothing; below the length, [next()] returns the
    element under the cursor and moves the cursor by one, the arrays being
    left alone; at or past the length, [next()] throws the error "No more
    elements" and changes nothing.  Probed from the start of a 3-element
    array, [hasNext()] is true and [next()] succeeds three times, then
    [hasNext()] is false and the fourth [next()] throws. *)
Theorem iterator_protocol {A : Type} (undefined : A)
    (s : Iterator.store) (it : loc) (i : Iterator.Iterator) (xs : list A)
    (Hit : Iterator.iterators s !! it = Some i)
    (Harr : Iterator.arrays s !! Iterator.collection i = Some xs) :
  (exists more,
     Iterator.hasNext it s = (Normal more, s)
     /\ (more = true <-> Iterator.index i < length xs))
  /\ (forall x, xs !! Iterator.index i = Some x ->
      exists s',
        Iterator.next undefined it s = (Normal x, s')
        /\ Iterator.iterators s' !! it
           = Some {| Iterator.collection := Iterator.collection i;
                     Iterator.index := Iterator.index i + 1 |}
        /\ Iterator.arrays s' = Iterator.arrays s)
  /\ (~ Iterator.index i < length xs ->
      Iterator.hasNext it s = (Normal false, s)
      /\ Iterator.next undefined it s = (Throw (Error "No more elements"), s))
  /\ (forall a b c, Iterator.index i = 0 -> xs = [a; b; c] ->
      fst (times 4 (Iterator.probe undefined it) s)
      = [Normal (true, Normal a); Normal (true, Normal b);
         Normal (true, Normal c);
         Normal (false, Throw (Error "No more elements"))]).
Proof.
  pose proof (hasNext_at s it i xs Hit Harr) as Hhas.
  split; [|split; [|split]].
  - eexists. split; [exact Hhas|]. apply Nat.ltb_lt.
  - intros x Hx. exists (Iterator.advance it i s).
    split; [by eapply next_in_range|].
    split; [|done]. rewrite Nat.add_1_r. by apply advance_iterator.
  - intros Hge. split.
    + rewrite Hhas. apply Nat.nlt_ge, Nat.ltb_ge in Hge. by rewrite Hge.
    + eapply next_past_end; [done..|lia].
  - intros a b c Hzero ->.
    rewrite (times_probe undefined 3 s it i [a; b; c] Hit Harr)
      by (rewrite Hzero; reflexivity).
    by rewrite Hzero.
Qed.

Lemma iterator_protocol_witness :
  let s := {| Iterator.arrays := [["Item 1"; "Item 2"; "Item 3"]];
              Iterator.iterators := [{| Iterator.collection := 0; Iterator.index := 3 |}] |} in
  Iterator.iterators s !! 0 = Some {| Iterator.collection := 0; Iterator.index := 3 |}
  /\ Iterator.arrays s !! 0 = Some ["Item 1"; "Item 2"; "Item 3"]
  /\ ~ 3 < 3
  /\ Iterator.next "undefined" 0 s = (Throw (Error "No more elements"), s).
Proof.
  intros s. split; [reflexivity|]. split; [reflexivity|].
  assert (~ 3 < 3) as Hend by lia. split; [exact Hend|].
  exact (proj2 (proj1 (proj2 (proj2
           (iterator_protocol "undefined" s 0
              {| Iterator.collection := 0; Iterator.index := 3 |}
              ["Item 1"; "Item 2"; "Item 3"] eq_refl eq_refl))) Hend)).
Defined.

(** The script's own use, from any store: a new collection filled with
    three items and probed four times through a new iterator. *)
Lemma probe_fresh_three {A : Type} (undefined : A) (a b c : A) (s : Iterator.store) :
  fst (Iterator.probe_fresh undefined [a; b; c] 4 s)
  = Normal [Normal (true, Normal a); Normal (true, Normal b);
            Normal (true, Normal c);
            Normal (false, Throw (Error "No more elements"))].
Proof.
  unfold Iterator.probe_fresh, bind at 1, Iterator.new_Collection.
  set (col := {| Iterator.items := length (Iterator.arrays s) |}).
  set (s1 := Iterator.set_arrays _ s).
  assert (Iterator.arrays s1 !! Iterator.items col = Some []) as Hnew.
  { subst s1 col. simpl. by rewrite lookup_app_r, Nat.sub_diag by lia. }
  destruct (add_all_at [a; b; c] s1 col [] Hnew) as (s2 & Hrun & Harr & Hits).
  unfold bind at 1. rewrite Hrun.
  unfold bind, Iterator.getIterator, Iterator.new_Iterator.
  set (s3 := Iterator.set_iterators _ s2).
  set (it := length (Iterator.iterators s2)).
  pose proof (times_probe undefined 3 s3 it
                {| Iterator.collection := Iterator.items col; Iterator.index := 0 |}
                [a; b; c]) as Hthree.
  destruct (times 4 (Iterator.probe undefined it) s3) as [rs s4].
  simpl in Hthree |- *. rewrite Hthree; [done| |exact Harr|done].
  subst s3 it. simpl. by rewrite lookup_app_r, Nat.sub_diag by lia.
Qed.

(** C7, as the claim states it, fails.  In the store left by
    [c = new Collection(); c.add("Item 1")], an iterator taken before
    [c.add("Item 2")] yields both items, while without that [add] it
    yields "Item 1" only. *)
Lemma iterator_snapshot_counterexample :
  let s := {| Iterator.arrays := [["Item 1"]]; Iterator.iterators := [] |} in
  let c := {| Iterator.items := 0 |} in
  (c' <- Iterator.new_Collection ;; Iterator.add c' "Item 1" ;; ret c')%js
    Iterator.empty = (Normal c, s)
  /\ fst (Iterator.traverse_after "undefined" c ["Item 2"] 3 s)
     = Normal (Some ["Item 1"; "Item 2"])
  /\ fst (Iterator.traverse_after "undefined" c [] 3 s)
     = Normal (Some ["Item 1"])
  /\ fst (Iterator.traverse_after "undefined" c ["Item 2"] 3 s)
     <> fst (Iterator.traverse_after "undefined" c [] 3 s).
Proof.
  intros s c. split; [reflexivity|].
  split; [reflexivity|]. split; [reflexivity|]. discriminate.
Qed.

(** C7, amended.  The iterator is given the array of the collection
    itself: whatever is added to the collection after the iterator was
    taken is part of what the loop over the iterator yields, after the
    items that were there; with nothing added, the loop yields the items
    of the time the iterator was taken.  The loop ends within one round
    more than there are items. *)
Theorem iterator_sees_later_adds {A : Type} (undefined : A)
    (s : Iterator.store) (c : Iterator.Collection) (xs ys : list A) (fuel : nat)
    (Harr : Iterator.arrays s !! Iterator.items c = Some xs)
    (Hfuel : length (xs ++ ys) < fuel) :
  fst (Iterator.traverse_after undefined c ys fuel s) = Normal (Some (xs ++ ys))
  /\ fst (Iterator.traverse_after undefined c [] fuel s) = Normal (Some xs).
Proof.
  assert (forall zs, length (xs ++ zs) < fuel ->
            fst (Iterator.traverse_after undefined c zs fuel s)
            = Normal (Some (xs ++ zs))) as Hgen.
  { intros zs Hzs.
    unfold Iterator.traverse_after, bind at 1,
      Iterator.getIterator, Iterator.new_Iterator.
    set (s1 := Iterator.set_iterators _ s).
    set (it := length (Iterator.iterators s)).
    destruct (add_all_at zs s1 c xs Harr) as (s2 & Hrun & Harr2 & Hits).
    unfold bind. rewrite Hrun.
    destruct (drain_from undefined fuel s2 it
                {| Iterator.collection := Iterator.items c; Iterator.index := 0 |}
                (xs ++ zs)) as (s3 & Hdrain & _).
    - rewrite Hits. subst s1 it. simpl.
      by rewrite lookup_app_r, Nat.sub_diag by lia.
    - exact Harr2.
    - simpl. lia.
    - by rewrite Hdrain. }
  split; [by apply Hgen|].
  specialize (Hgen []). rewrite app_nil_r in Hgen. apply Hgen.
  rewrite length_app in Hfuel. lia.
Qed.

Lemma iterator_sees_later_adds_witness :
  let s := {| Iterator.arrays := [["Item 1"]]; Iterator.iterators := [] |} in
  let c := {| Iterator.items := 0 |} in
  Iterator.arrays s !! Iterator.items c = Some ["Item 1"]
  /\ length (["Item 1"] ++ ["Item 2"]) < 3
  /\ fst (Iterator.traverse_after "undefined" c ["Item 2"] 3 s)
     = Normal (Some (["Item 1"] ++ ["Item 2"])).
Proof.
  intros s c. split; [reflexivity|].
  assert (length (["Item 1"] ++ ["Item 2"]) < 3) as Hfuel by (simpl; lia).
  split; [exact Hfuel|].
  exact (proj1 (iterator_sees_later_adds "undefined" s c
                  ["Item 1"] ["Item 2"] 3 eq_refl Hfuel)).
Defined.

(** ** Command *)

(** C10.  On a remote control that never got a command, [pressButton()]
    dereferences the [null] it holds: the call throws a [TypeError],
    writes nothing and is not the normal completion a no-op would be. *)
Theorem pressButton_without_command (out : Command.console) :
  (exists msg, Command.pressButton Command.new out = (Throw (TypeError msg), out))
  /\ Command.command Command.new = None
  /\ fst (Command.pressButton Command.new out) <> Normal tt.
Proof.
  split; [by eexists|]. split; [reflexivity|discriminate].
Qed.

(** * Further properties of the code *)

Lemma normals_Normal {A} (xs : list A) : normals (Normal <$> xs) = xs.
Proof.
  induction xs as [|x xs IH]; [done|].
  change (normals (Normal <$> x :: xs)) with (x :: normals (Normal <$> xs)).
  by rewrite IH.
Qed.

(** ** Singleton: histories of calls *)

Section SingletonHistories.

Import Singleton.
Variable random : nat -> Q.

Lemma constructor_guarded (w : world) (l : loc) :
  instance w = Some l ->
  constructor random w
  = (Throw (Error "Cannot instantiate directly. Use Singleton.getInstance() instead."), w).
Proof. intros Hsome. unfold constructor, bind, gets, throw. by rewrite Hsome. Qed.

Lemma times_constructor (n : nat) (w : world) :
  instance w = None ->
  fst (times n (constructor random) w) = Normal <$> seq (length (heap w)) n
  /\ instance (snd (times n (constructor random) w)) = None
  /\ length (heap (snd (times n (constructor random) w))) = length (heap w) + n.
Proof.
  revert w. induction n as [|n IH]; intros w Hnone.
  - simpl. split; [done|]. split; [done|lia].
  - cbn [times]. rewrite (constructor_fresh random w Hnone).
    set (w1 := {| heap := _; instance := None; draws := _ |}).
    destruct (IH w1 eq_refl) as (Hres & Hslot & Hlen).
    destruct (times n (constructor random) w1) as [cs w2].
    simpl in *. rewrite Hres, Hslot, Hlen, length_app. simpl.
    rewrite Nat.add_1_r. split; [done|]. split; [done|lia].
Qed.

End SingletonHistories.

(** X1.  Once the slot holds the instance, no sequence of
    [new Singleton()] and [getInstance()] calls changes anything: every
    [getInstance()] returns that same reference, every [new Singleton()]
    throws, and the store at the end is the store at the start (no object
    is allocated, [Math.random()] is not called again). *)
Theorem singleton_frozen
    (random : nat -> Q) (cs : list Singleton.call) (w : Singleton.world) (l : loc)
    (Hsome : Singleton.instance w = Some l) :
  each (Singleton.perform random) cs w
  = ((fun c => match c with
               | Singleton.DirectNew =>
                   Throw (Error "Cannot instantiate directly. Use Singleton.getInstance() instead.")
               | Singleton.ViaGetInstance => Normal (Some l)
               end) <$> cs,
     w).
Proof.
  induction cs as [|c cs IH]; [done|].
  cbn [each fmap list_fmap]. destruct c; cbn [Singleton.perform].
  - unfold bind at 1. rewrite (constructor_guarded random w l Hsome).
    by rewrite IH.
  - rewrite (getInstance_again random w l Hsome). by rewrite IH.
Qed.

Lemma singleton_frozen_witness :
  let w := snd (Singleton.getInstance (fun _ => 1 # 2) Singleton.boot) in
  Singleton.instance w = Some 0
  /\ each (Singleton.perform (fun _ => 1 # 2))
       [Singleton.ViaGetInstance; Singleton.DirectNew; Singleton.ViaGetInstance] w
     = ([Normal (Some 0);
         Throw (Error "Cannot instantiate directly. Use Singleton.getInstance() instead.");
         Normal (Some 0)], w).
Proof.
  intros w. split; [reflexivity|].
  exact (singleton_frozen (fun _ => 1 # 2)
           [Singleton.ViaGetInstance; Singleton.DirectNew; Singleton.ViaGetInstance]
           w 0 eq_refl).
Defined.

(** X2.  The guard of the constructor only looks at the slot, and only
    [getInstance()] fills the slot.  So before the first [getInstance()],
    [n] direct constructions all succeed, build [n] distinct new objects
    and leave the slot empty; the [getInstance()] that follows builds one
    more object, which is none of them. *)
Theorem direct_construction_before_getInstance
    (random : nat -> Q) (n : nat) (w : Singleton.world)
    (Hnone : Singleton.instance w = None) :
  let built := times n (Singleton.constructor random) w in
  fst built = Normal <$> seq (length (Singleton.heap w)) n
  /\ NoDup (normals (fst built))
  /\ Singleton.instance (snd built) = None
  /\ (exists l,
        fst (Singleton.getInstance random (snd built)) = Normal (Some l)
        /\ (l ∉ normals (fst built))
        /\ Singleton.heap w !! l = None).
Proof.
  intros built. subst built.
  destruct (times_constructor random n w Hnone) as (Hres & Hslot & Hlen).
  assert (normals (fst (times n (Singleton.constructor random) w))
          = seq (length (Singleton.heap w)) n) as Hrefs.
  { rewrite Hres. apply normals_Normal. }
  split; [exact Hres|]. split; [rewrite Hrefs; apply NoDup_seq|].
  split; [exact Hslot|].
  exists (length (Singleton.heap w) + n). split.
  - rewrite (getInstance_first random _ Hslot). simpl. by rewrite Hlen.
  - split.
    + rewrite Hrefs, elem_of_seq. lia.
    + apply lookup_ge_None. lia.
Qed.

Lemma direct_construction_before_getInstance_witness :
  Singleton.instance Singleton.boot = None
  /\ fst (times 2 (Singleton.constructor (fun _ => 1 # 2)) Singleton.boot)
     = Normal <$> seq (length (Singleton.heap Singleton.boot)) 2.
Proof.
  split; [reflexivity|].
  exact (proj1 (direct_construction_before_getInstance (fun _ => 1 # 2) 2
                  Singleton.boot eq_refl)).
Defined.

(** ** Factory method: what the factory hands out *)

Lemma getVehicle_cases (k : string) (h : Factory.heap) :
  ((k = "car" \/ k = "bike")
   /\ exists c, c <> Factory.Vehicle
                /\ Factory.getVehicle k h = (Normal (length h), h ++ [c]))
  \/ (~ (k = "car" \/ k = "bike")
      /\ Factory.getVehicle k h = (Throw (Error "Unknown vehicle type"), h)).
Proof.
  destruct (decide (k = "car")) as [->|Hcar].
  { left. split; [by left|]. by exists Factory.Car. }
  destruct (decide (k = "bike")) as [->|Hbike].
  { left. split; [by right|]. by exists Factory.Bike. }
  right. split; [tauto|]. by apply getVehicle_other.
Qed.

(** X3.  The factory keeps nothing: every accepted key gives a new object,
    so the references returned along any sequence of calls are pairwise
    distinct (also for equal keys) and new to the heap; the heap grows by
    one object per accepted key, a refused key leaves it alone, and the
    objects that were there stay as they were. *)
Theorem getVehicle_always_new (ks : list string) (h : Factory.heap) :
  let accepted := filter (fun k => k = "car" \/ k = "bike") ks in
  normals (fst (each Factory.getVehicle ks h)) = seq (length h) (length accepted)
  /\ NoDup (normals (fst (each Factory.getVehicle ks h)))
  /\ (exists built,
        snd (each Factory.getVehicle ks h) = h ++ built
        /\ length built = length accepted).
Proof.
  intros accepted. subst accepted.
  assert (normals (fst (each Factory.getVehicle ks h))
          = seq (length h) (length (filter (fun k => k = "car" \/ k = "bike") ks))
          /\ exists built,
               snd (each Factory.getVehicle ks h) = h ++ built
               /\ length built
                  = length (filter (fun k => k = "car" \/ k = "bike") ks)) as [Hrefs Hheap].
  { revert h. induction ks as [|k ks IH]; intros h.
    - split; [done|]. exists []. by rewrite app_nil_r.
    - cbn [each].
      destruct (getVehicle_cases k h) as [[Hk (c & _ & ->)]|[Hk ->]].
      + destruct (IH (h ++ [c])) as (Hrefs & built & Hsnd & Hlen).
        destruct (each Factory.getVehicle ks (h ++ [c])) as [cs h'].
        rewrite filter_cons_True by done. simpl in *.
        unfold normals in *. simpl. rewrite Hrefs.
        unfold Factory.heap in *. rewrite length_app. simpl.
        rewrite Nat.add_1_r. split; [done|].
        exists (c :: built). rewrite Hsnd, <- app_assoc. simpl.
        split; [done|]. by rewrite Hlen.
      + destruct (IH h) as (Hrefs & built & Hsnd & Hlen).
        destruct (each Factory.getVehicle ks h) as [cs h'].
        rewrite filter_cons_False by done. simpl in *.
        unfold normals in *. simpl. split; [done|]. by exists built. }
  split; [exact Hrefs|]. split; [rewrite Hrefs; apply NoDup_seq|exact Hheap].
Qed.

(** X4.  What [getVehicle] returns is never an object of the base class:
    [create()] on it ends normally, with the string of the key's class.
    [create()] on a plain [new Vehicle()] is the call that throws. *)
Theorem factory_products_create (k : string) (h : Factory.heap) :
  (forall v h',
     Factory.getVehicle k h = (Normal v, h') ->
     exists str,
       Factory.create v h' = (Normal str, h')
       /\ ((k = "car" /\ str = "Car created")
           \/ (k = "bike" /\ str = "Bike created")))
  /\ (v <- Factory.new Factory.Vehicle ;; Factory.create v)%js h
     = (Throw (Error "This method should be overridden!"), h ++ [Factory.Vehicle]).
Proof.
  split.
  - intros v h' Hget.
    destruct (decide (k = "car")) as [->|Hcar].
    { rewrite getVehicle_car in Hget. injection Hget as <- <-.
      exists "Car created". rewrite create_new. split; [done|by left]. }
    destruct (decide (k = "bike")) as [->|Hbike].
    { rewrite getVehicle_bike in Hget. injection Hget as <- <-.
      exists "Bike created". rewrite create_new. split; [done|by right]. }
    by rewrite (getVehicle_other k h Hcar Hbike) in Hget.
  - unfold bind, Factory.new. by rewrite create_new.
Qed.

Lemma factory_products_create_witness :
  Factory.getVehicle "bike" [Factory.Car] = (Normal 1, [Factory.Car; Factory.Bike])
  /\ exists str,
       Factory.create 1 [Factory.Car; Factory.Bike]
       = (Normal str, [Factory.Car; Factory.Bike])
       /\ ((("bike" : string) = "car" /\ str = "Car created")
           \/ (("bike" : string) = "bike" /\ str = "Bike created")).
Proof.
  split; [reflexivity|].
  exact (proj1 (factory_products_create "bike" [Factory.Car])
           1 [Factory.Car; Factory.Bike] eq_refl).
Defined.

(** ** Decorator: any nesting *)

(** X5.  The price of a nesting depends on which decorators it is made
    of, not on the order they were put on: two nestings of the same
    decorators around the same base cost the same. *)
Theorem nest_order_irrelevant
    (ds ds' : list Decorator.layer) (base : Decorator.Component)
    (Hperm : ds ≡ₚ ds') :
  Decorator.cost (Decorator.nest ds base) = Decorator.cost (Decorator.nest ds' base).
Proof. by rewrite !cost_nest, (increments_perm ds ds' Hperm). Qed.

Lemma nest_order_irrelevant_witness :
  [Decorator.Milk; Decorator.Sugar; Decorator.Milk]
    ≡ₚ [Decorator.Sugar; Decorator.Milk; Decorator.Milk]
  /\ Decorator.cost
       (Decorator.nest [Decorator.Milk; Decorator.Sugar; Decorator.Milk]
          Decorator.Coffee)
     = Decorator.cost
         (Decorator.nest [Decorator.Sugar; Decorator.Milk; Decorator.Milk]
            Decorator.Coffee).
Proof.
  assert ([Decorator.Milk; Decorator.Sugar; Decorator.Milk]
            ≡ₚ [Decorator.Sugar; Decorator.Milk; Decorator.Milk]) as Hperm
    by apply perm_swap.
  split; [exact Hperm|].
  exact (nest_order_irrelevant _ _ Decorator.Coffee Hperm).
Defined.

(** X6.  Whatever is built from the coffee and the two decorators costs
    at least 5 plus one per decorator and at most 5 plus two per
    decorator, and putting one more decorator on always costs more. *)
Theorem cost_range :
  (forall c,
     5 + Z.of_nat (Decorator.depth c) <= Decorator.cost c
     <= 5 + 2 * Z.of_nat (Decorator.depth c))%Z
  /\ (forall d c, Decorator.cost c < Decorator.cost (Decorator.wrap d c))%Z.
Proof.
  split; [exact cost_bound|].
  intros d c. rewrite cost_wrap. destruct d; simpl; lia.
Qed.

(** ** Composite: children of either kind *)

Section CompositeChildren.

Import Composite.

Lemma array_map_snoc {A B} (f : A -> completion B) (xs : list A) (x : A) :
  array_map f (xs ++ [x])
  = match array_map f xs with
    | Throw e => Throw e
    | Normal ys =>
        match f x with
        | Throw e => Throw e
        | Normal y => Normal (ys ++ [y])
        end
    end.
Proof.
  induction xs as [|x' xs IH]; simpl.
  - by destruct (f x).
  - destruct (f x') as [y'|e]; [|done]. rewrite IH.
    destruct (array_map f xs) as [ys|e]; [|done]. by destruct (f x).
Qed.

Lemma array_map_children (cs : list Component) :
  (Forall is_leaf cs ->
   exists ns, array_map child_getName cs = Normal ns /\ length ns = length cs)
  /\ (~ Forall is_leaf cs ->
      array_map child_getName cs = Throw (TypeError "child.getName is not a function")).
Proof.
  induction cs as [|child cs [IHyes IHno]].
  - split; [by exists []|]. intros Hno. by destruct Hno.
  - split.
    + intros Hall. apply Forall_cons in Hall as [Hleaf Hall].
      destruct child as [l|inner]; [|done].
      destruct (IHyes Hall) as (ns & Hns & Hlen).
      exists (getName l :: ns). simpl. rewrite Hns. split; [done|].
      simpl. by rewrite Hlen.
    + intros Hno. destruct child as [l|inner]; [|done].
      simpl. rewrite IHno; [done|].
      intros Hall. apply Hno. by constructor.
Qed.

End CompositeChildren.

(** X7.  [getNames()] succeeds exactly on a composite whose children are
    all leaves, with one name per child.  As soon as one child is itself a
    composite the call throws the [TypeError] of the missing [getName],
    and none of the names is returned. *)
Theorem getNames_needs_leaves (c : Composite.Composite) :
  (Forall Composite.is_leaf (Composite.children c) ->
   exists ns,
     Composite.getNames c = Normal ns
     /\ length ns = length (Composite.children c))
  /\ (~ Forall Composite.is_leaf (Composite.children c) ->
      Composite.getNames c = Throw (TypeError "child.getName is not a function")).
Proof. apply array_map_children. Qed.

Lemma getNames_needs_leaves_witness :
  let c := Composite.add (Composite.AComposite [])
             (Composite.add (Composite.ALeaf {| Composite.name := "Leaf 1" |})
                Composite.new) in
  ~ Forall Composite.is_leaf (Composite.children c)
  /\ Composite.getNames c = Throw (TypeError "child.getName is not a function").
Proof.
  intros c.
  assert (~ Forall Composite.is_leaf (Composite.children c)) as Hno.
  { intros Hall. apply Forall_cons in Hall as [_ Hall].
    apply Forall_cons in Hall as [Hleaf _]. exact Hleaf. }
  split; [exact Hno|].
  exact (proj2 (getNames_needs_leaves c) Hno).
Defined.

(** X8.  [add] only ever appends: on a composite whose [getNames()]
    returns [ns], adding a leaf makes it return [ns] followed by the name
    of that leaf; and a composite whose [getNames()] throws keeps throwing
    the same error whatever is added, since nothing removes a child. *)
Theorem getNames_after_add (c : Composite.Composite) :
  (forall ns l,
     Composite.getNames c = Normal ns ->
     Composite.getNames (Composite.add (Composite.ALeaf l) c)
     = Normal (ns ++ [Composite.name l]))
  /\ (forall e child,
        Composite.getNames c = Throw e ->
        Composite.getNames (Composite.add child c) = Throw e).
Proof.
  unfold Composite.getNames. split.
  - intros ns l Hns. simpl. by rewrite array_map_snoc, Hns.
  - intros e child He. simpl. by rewrite array_map_snoc, He.
Qed.

Lemma getNames_after_add_witness :
  let c := Composite.add (Composite.ALeaf {| Composite.name := "Leaf 1" |})
             Composite.new in
  Composite.getNames c = Normal ["Leaf 1"]
  /\ Composite.getNames
       (Composite.add (Composite.ALeaf {| Composite.name := "Leaf 2" |}) c)
     = Normal (["Leaf 1"] ++ ["Leaf 2"]).
Proof.
  intros c. split; [reflexivity|].
  exact (proj1 (getNames_after_add c) ["Leaf 1"]
           {| Composite.name := "Leaf 2" |} eq_refl).
Defined.

(** ** Observer: notifications over time *)

(** X9.  A notification reaches the observers of the list as it is when
    [notifyObservers] is called: an observer added after a message went
    out does not get that message, and gets the next one after all the
    observers that were there before it. *)
Theorem late_observer_misses_earlier
    (m1 m2 : string) (o : Observer.Observer) (s : Observer.Subject)
    (out : Observer.console) :
  (Observer.notifyObservers m1 s ;;
   Observer.notifyObservers m2 (Observer.addObserver o s))%js out
  = (Normal tt,
     out ++ (Observer.received m1 <$> Observer.observers s)
         ++ (Observer.received m2 <$> Observer.observers s)
         ++ [Observer.received m2 o]).
Proof.
  unfold bind, Observer.notifyObservers. rewrite !forEach_update.
  simpl. by rewrite fmap_app, <- !app_assoc.
Qed.

(** ** Chain of responsibility: any chain *)

Section ChainAny.

Import Chain.

Lemma takes_functional (cls cls' : class) (request r r' : string) :
  takes cls request r -> takes cls' request r' -> cls' = cls /\ r' = r.
Proof. by do 2 inversion 1. Qed.

Lemma dispatch_member (cs : list class) (cls : class) (request r : string) :
  takes cls request r -> cls ∈ cs -> dispatch cs request = r.
Proof.
  intros Htakes. induction cs as [|cls' cs IH]; intros Hin.
  - by apply elem_of_nil in Hin.
  - simpl. destruct (own_handle cls' request) as [r'|] eqn:Hown.
    + apply own_handle_takes in Hown.
      by destruct (takes_functional cls cls' request r r' Htakes Hown).
    + apply elem_of_cons in Hin as [->|Hin]; [|by apply IH].
      apply own_handle_takes in Htakes. congruence.
Qed.

Lemma dispatch_nobody (cs : list class) (request : string) :
  (forall cls, cls ∈ cs -> declines cls request) ->
  dispatch cs request = unhandled.
Proof.
  induction cs as [|cls cs IH]; intros Hall; [done|].
  simpl. rewrite (own_handle_declines cls request) by (apply Hall; left).
  apply IH. intros cls' Hin. apply Hall. by right.
Qed.

Lemma calls_classes_prefix (h : Handler) (request : string) :
  (class_of <$> calls h request) `prefix_of` chain h.
Proof.
  induction h as [cls|cls n IH] using Handler_chain_ind;
    unfold calls in *; simpl; destruct (own_handle cls request).
  - done.
  - done.
  - apply prefix_cons, prefix_nil.
  - destruct (handle_calls n request) as [r cs]. simpl in *.
    by apply prefix_cons.
Qed.

End ChainAny.

(** X10.  On any chain, [handle] does what a dispatcher over the list of
    the handlers' classes does: it returns the string of the first handler
    along the links that takes the request, and the fixed string when none
    does.  The handlers that run are the first ones of the chain, in
    order, starting with the one that was asked. *)
Theorem handle_as_dispatcher (h : Chain.Handler) (request : string) :
  Chain.handle h request = Chain.dispatch (Chain.chain h) request
  /\ (Chain.class_of <$> Chain.calls h request) `prefix_of` Chain.chain h
  /\ (exists rest, Chain.calls h request = h :: rest).
Proof.
  split; [apply handle_dispatch|].
  split; [apply calls_classes_prefix|apply calls_nonempty].
Qed.

(** X11.  The three tests exclude one another, so the order of a chain
    does not matter: a request that a class takes is answered with that
    class's string by every chain that has a handler of the class
    anywhere in it, and a request that no handler of the chain takes gets
    the fixed string. *)
Theorem handle_any_order (h : Chain.Handler) (request : string) :
  (forall cls r,
     Chain.takes cls request r -> cls ∈ Chain.chain h ->
     Chain.handle h request = r)
  /\ ((forall cls, cls ∈ Chain.chain h -> Chain.declines cls request) ->
      Chain.handle h request = "No handler available for this request.").
Proof.
  rewrite handle_dispatch. split.
  - intros cls r Htakes Hin. by eapply dispatch_member.
  - apply dispatch_nobody.
Qed.

Lemma handle_any_order_witness :
  let reversed :=
    Chain.new Chain.HighLevelHandler
      (Some (Chain.new Chain.MediumLevelHandler
               (Some (Chain.new Chain.LowLevelHandler None)))) in
  Chain.takes Chain.LowLevelHandler "low" "Handled by LowLevelHandler"
  /\ Chain.LowLevelHandler ∈ Chain.chain reversed
  /\ Chain.handle reversed "low" = "Handled by LowLevelHandler".
Proof.
  intros reversed.
  assert (Chain.LowLevelHandler ∈ Chain.chain reversed) as Hin
    by (simpl; do 2 right; left).
  split; [constructor|]. split; [exact Hin|].
  exact (proj1 (handle_any_order reversed "low")
           Chain.LowLevelHandler _ Chain.takes_low Hin).
Defined.

(** ** Iterator: cursors over a shared array *)

Section IteratorCursors.

Import Iterator.
Context {A : Type} (undefined : A).
Implicit Types (s : store (A:=A)) (i : Iterator) (xs : list A).

(** The loop from any cursor, with what it leaves behind. *)
Lemma drain_leaves (fuel : nat) s it i xs :
  iterators s !! it = Some i -> arrays s !! collection i = Some xs ->
  length xs - index i < fuel ->
  exists s',
    drain undefined fuel it s = (Normal (Some (drop (index i) xs)), s')
    /\ arrays s' = arrays s
    /\ iterators s' !! it
       = Some {| collection := collection i; index := index i `max` length xs |}
    /\ (forall it', it' <> it -> iterators s' !! it' = iterators s !! it').
Proof.
  revert s i. induction fuel as [|fuel IH]; intros s i Hit Harr Hfuel; [lia|].
  cbn [drain]. unfold bind at 1. rewrite (hasNext_at s it i xs Hit Harr).
  destruct (Nat.ltb_spec (index i) (length xs)) as [Hlt|Hge].
  - destruct (lookup_lt_is_Some_2 xs (index i) Hlt) as [x Hx].
    unfold bind at 1. rewrite (next_in_range undefined s it i xs x Hit Harr Hx).
    destruct (IH (advance it i s) {| collection := collection i; index := S (index i) |})
      as (s' & Hdrain & Hsame & Hend & Hframe).
    + by apply advance_iterator.
    + exact Harr.
    + simpl. lia.
    + exists s'. unfold bind, ret. rewrite Hdrain. simpl in *.
      rewrite (drop_S xs x (index i) Hx).
      split; [done|]. split; [done|]. split.
      * rewrite Hend. do 2 f_equal. lia.
      * intros it' Hne. rewrite (Hframe it' Hne).
        by apply list_lookup_insert_ne.
  - exists s. unfold ret. rewrite drop_ge by done.
    split; [done|]. split; [done|]. split; [|done].
    rewrite Hit. destruct i as [col k]. simpl in *. do 2 f_equal. lia.
Qed.

Lemma getIterator_at s (c : Collection) :
  getIterator c s
  = (Normal (length (iterators s)),
     set_iterators (fun its => its ++ [{| collection := items c; index := 0 |}]) s).
Proof. reflexivity. Qed.

End IteratorCursors.

(** X12.  The loop [while (it.hasNext()) ... it.next()] ends, from
    wherever the cursor stands: it yields the elements from the cursor to
    the end of the array, in order, leaves the arrays and every other
    iterator as they were, and leaves this iterator at the end, where
    [hasNext()] is false. *)
Theorem drain_exhausts {A : Type} (undefined : A)
    (fuel : nat) (s : Iterator.store) (it : loc) (i : Iterator.Iterator)
    (xs : list A)
    (Hit : Iterator.iterators s !! it = Some i)
    (Harr : Iterator.arrays s !! Iterator.collection i = Some xs)
    (Hfuel : length xs - Iterator.index i < fuel) :
  exists s',
    Iterator.drain undefined fuel it s
    = (Normal (Some (drop (Iterator.index i) xs)), s')
    /\ Iterator.arrays s' = Iterator.arrays s
    /\ (forall it', it' <> it ->
        Iterator.iterators s' !! it' = Iterator.iterators s !! it')
    /\ Iterator.hasNext it s' = (Normal false, s').
Proof.
  destruct (drain_leaves undefined fuel s it i xs Hit Harr Hfuel)
    as (s' & Hdrain & Hsame & Hend & Hframe).
  exists s'. split; [exact Hdrain|]. split; [exact Hsame|].
  split; [exact Hframe|].
  rewrite (hasNext_at s' it _ xs Hend) by (by rewrite Hsame).
  simpl. by destruct (Nat.ltb_spec (Iterator.index i `max` length xs) (length xs)); [lia|].
Qed.

Lemma drain_exhausts_witness :
  let s := {| Iterator.arrays := [["Item 1"; "Item 2"; "Item 3"]];
              Iterator.iterators := [{| Iterator.collection := 0; Iterator.index := 1 |}] |} in
  Iterator.iterators s !! 0 = Some {| Iterator.collection := 0; Iterator.index := 1 |}
  /\ Iterator.arrays s !! 0 = Some ["Item 1"; "Item 2"; "Item 3"]
  /\ 3 - 1 < 3
  /\ exists s',
       Iterator.drain "undefined" 3 0 s = (Normal (Some ["Item 2"; "Item 3"]), s')
       /\ Iterator.arrays s' = Iterator.arrays s
       /\ (forall it', it' <> 0 ->
           Iterator.iterators s' !! it' = Iterator.iterators s !! it')
       /\ Iterator.hasNext 0 s' = (Normal false, s').
Proof.
  intros s. split; [reflexivity|]. split; [reflexivity|].
  assert (3 - 1 < 3) as Hfuel by lia. split; [exact Hfuel|].
  exact (drain_exhausts "undefined" 3 s 0
           {| Iterator.collection := 0; Iterator.index := 1 |}
           ["Item 1"; "Item 2"; "Item 3"] eq_refl eq_refl Hfuel).
Defined.

(** X13.  Two iterators taken from one collection are two cursors:
    running the loop on the first to the end does not move the second,
    which still yields every item. *)
Theorem iterators_have_own_cursors {A : Type} (undefined : A)
    (s : Iterator.store) (c : Iterator.Collection) (xs : list A) (fuel : nat)
    (Harr : Iterator.arrays s !! Iterator.items c = Some xs)
    (Hfuel : length xs < fuel) :
  fst ((it1 <- Iterator.getIterator c ;;
        it2 <- Iterator.getIterator c ;;
        r1 <- Iterator.drain undefined fuel it1 ;;
        r2 <- Iterator.drain undefined fuel it2 ;;
        ret (r1, r2))%js s)
  = Normal (Some xs, Some xs).
Proof.
  unfold bind at 1. rewrite getIterator_at.
  set (s1 := Iterator.set_iterators _ s).
  unfold bind at 1. rewrite getIterator_at.
  set (s2 := Iterator.set_iterators _ s1).
  set (start := {| Iterator.collection := Iterator.items c; Iterator.index := 0 |}).
  assert (Iterator.iterators s2 !! length (Iterator.iterators s) = Some start) as H1.
  { subst s2 s1. simpl. rewrite lookup_app_l by (rewrite length_app; simpl; lia).
    by rewrite lookup_app_r, Nat.sub_diag by lia. }
  assert (Iterator.iterators s2 !! length (Iterator.iterators s1) = Some start) as H2.
  { subst s2. simpl. by rewrite lookup_app_r, Nat.sub_diag by lia. }
  destruct (drain_leaves undefined fuel s2 _ start xs H1 Harr)
    as (s3 & Hd1 & Hsame & _ & Hframe); [simpl; lia|].
  unfold bind at 1. rewrite Hd1.
  destruct (drain_leaves undefined fuel s3 (length (Iterator.iterators s1)) start xs)
    as (s4 & Hd2 & _).
  - rewrite Hframe; [exact H2|]. subst s1. simpl. rewrite length_app. simpl. lia.
  - by rewrite Hsame.
  - simpl. lia.
  - unfold bind. by rewrite Hd2.
Qed.

Lemma iterators_have_own_cursors_witness :
  let s := {| Iterator.arrays := [["Item 1"; "Item 2"]]; Iterator.iterators := [] |} in
  let c := {| Iterator.items := 0 |} in
  Iterator.arrays s !! Iterator.items c = Some ["Item 1"; "Item 2"]
  /\ length ["Item 1"; "Item 2"] < 3
  /\ fst ((it1 <- Iterator.getIterator c ;;
           it2 <- Iterator.getIterator c ;;
           r1 <- Iterator.drain "undefined" 3 it1 ;;
           r2 <- Iterator.drain "undefined" 3 it2 ;;
           ret (r1, r2))%js s)
     = Normal (Some ["Item 1"; "Item 2"], Some ["Item 1"; "Item 2"]).
Proof.
  intros s c. split; [reflexivity|].
  assert (length ["Item 1"; "Item 2"] < 3) as Hfuel by (simpl; lia).
  split; [exact Hfuel|].
  exact (iterators_have_own_cursors "undefined" s c ["Item 1"; "Item 2"] 3
           eq_refl Hfuel).
Defined.

(** X14.  An iterator that reached the end is not finished for good: if
    an item is added to the collection afterwards, [hasNext()] is true
    again and [next()] returns the new item. *)
Theorem exhausted_iterator_resumes {A : Type} (undefined : A)
    (s : Iterator.store) (c : Iterator.Collection) (xs : list A) (x : A)
    (fuel : nat)
    (Harr : Iterator.arrays s !! Iterator.items c = Some xs)
    (Hfuel : length xs < fuel) :
  fst ((it <- Iterator.getIterator c ;;
        seen <- Iterator.drain undefined fuel it ;;
        before <- Iterator.hasNext it ;;
        Iterator.add c x ;;
        after <- Iterator.hasNext it ;;
        y <- Iterator.next undefined it ;;
        ret (seen, before, after, y))%js s)
  = Normal (Some xs, false, true, x).
Proof.
  unfold bind at 1. rewrite getIterator_at.
  set (s1 := Iterator.set_iterators _ s).
  set (it := length (Iterator.iterators s)).
  set (start := {| Iterator.collection := Iterator.items c; Iterator.index := 0 |}).
  assert (Iterator.iterators s1 !! it = Some start) as Hit.
  { subst s1 it. simpl. by rewrite lookup_app_r, Nat.sub_diag by lia. }
  destruct (drain_leaves undefined fuel s1 it start xs Hit Harr)
    as (s2 & Hdrain & Hsame & Hend & _); [simpl; lia|].
  replace (Iterator.index start `max` length xs) with (length xs) in Hend
    by (simpl; lia).
  simpl in Hend.
  unfold bind at 1. rewrite Hdrain.
  assert (Iterator.arrays s2 !! Iterator.items c = Some xs) as Harr2
    by (by rewrite Hsame).
  unfold bind at 1. rewrite (hasNext_at s2 it _ xs Hend Harr2).
  unfold bind at 1. rewrite (add_at s2 c xs x Harr2).
  set (s3 := Iterator.set_arrays _ s2).
  assert (Iterator.arrays s3 !! Iterator.items c = Some (xs ++ [x])) as Harr3.
  { subst s3. simpl. apply list_lookup_insert_eq. by eapply lookup_lt_Some. }
  assert ((xs ++ [x]) !! length xs = Some x) as Hx
    by (by rewrite lookup_app_r, Nat.sub_diag by lia).
  unfold bind at 1. rewrite (hasNext_at s3 it _ (xs ++ [x]) Hend Harr3).
  unfold bind, ret.
  rewrite (next_in_range undefined s3 it _ (xs ++ [x]) x Hend Harr3 Hx).
  simpl. rewrite length_app. simpl.
  destruct (Nat.ltb_spec (length xs) (length xs)) as [?|_]; [lia|].
  by destruct (Nat.ltb_spec (length xs) (length xs + 1)) as [_|?]; [|lia].
Qed.

Lemma exhausted_iterator_resumes_witness :
  let s := {| Iterator.arrays := [["Item 1"]]; Iterator.iterators := [] |} in
  let c := {| Iterator.items := 0 |} in
  Iterator.arrays s !! Iterator.items c = Some ["Item 1"]
  /\ length ["Item 1"] < 2
  /\ fst ((it <- Iterator.getIterator c ;;
           seen <- Iterator.drain "undefined" 2 it ;;
           before <- Iterator.hasNext it ;;
           Iterator.add c "Item 2" ;;
           after <- Iterator.hasNext it ;;
           y <- Iterator.next "undefined" it ;;
           ret (seen, before, after, y))%js s)
     = Normal (Some ["Item 1"], false, true, "Item 2").
Proof.
  intros s c. split; [reflexivity|].
  assert (length ["Item 1"] < 2) as Hfuel by (simpl; lia).
  split; [exact Hfuel|].
  exact (exhausted_iterator_resumes "undefined" s c ["Item 1"] "Item 2" 2
           eq_refl Hfuel).
Defined.

(** X15.  Collections do not share storage.  A new collection gets an
    array that no object had before and that is empty, and creating it
    changes no array that exists; [add] extends the array of its own
    collection at the end and touches neither another collection's array
    nor the cursor of any iterator. *)
Theorem collections_do_not_share {A : Type} (s : Iterator.store (A:=A)) :
  (exists c s',
     Iterator.new_Collection s = (Normal c, s')
     /\ Iterator.arrays s !! Iterator.items c = None
     /\ Iterator.arrays s' !! Iterator.items c = Some []
     /\ (forall l xs, Iterator.arrays s !! l = Some xs ->
         Iterator.arrays s' !! l = Some xs)
     /\ Iterator.iterators s' = Iterator.iterators s)
  /\ (forall c xs x,
        Iterator.arrays s !! Iterator.items c = Some xs ->
        exists s',
          Iterator.add c x s = (Normal tt, s')
          /\ Iterator.arrays s' !! Iterator.items c = Some (xs ++ [x])
          /\ (forall l, l <> Iterator.items c ->
              Iterator.arrays s' !! l = Iterator.arrays s !! l)
          /\ Iterator.iterators s' = Iterator.iterators s).
Proof.
  split.
  - eexists _, _. split; [reflexivity|]. simpl.
    split; [apply lookup_ge_None; lia|].
    split; [by rewrite lookup_app_r, Nat.sub_diag by lia|].
    split; [|done]. intros l xs Hl.
    rewrite lookup_app_l by (by eapply lookup_lt_Some). exact Hl.
  - intros c xs x Harr. eexists. split; [by apply add_at|]. simpl.
    split; [apply list_lookup_insert_eq; by eapply lookup_lt_Some|].
    split; [|done]. intros l Hne. by apply list_lookup_insert_ne.
Qed.

Lemma collections_do_not_share_witness :
  let s := {| Iterator.arrays := [["Item 1"]; ["other"]]; Iterator.iterators := [] |} in
  let c := {| Iterator.items := 0 |} in
  Iterator.arrays s !! Iterator.items c = Some ["Item 1"]
  /\ exists s',
       Iterator.add c "Item 2" s = (Normal tt, s')
       /\ Iterator.arrays s' !! Iterator.items c = Some (["Item 1"] ++ ["Item 2"])
       /\ (forall l, l <> Iterator.items c ->
           Iterator.arrays s' !! l = Iterator.arrays s !! l)
       /\ Iterator.iterators s' = Iterator.iterators s.
Proof.
  intros s c. split; [reflexivity|].
  exact (proj2 (collections_do_not_share s) c ["Item 1"] "Item 2" eq_refl).
Defined.

(** ** Command: sequences of presses *)

Section CommandSequences.

Import Command.

Lemma execute_concrete (c : Command) (out : console) :
  c <> BaseCommand ->
  execute c out = (Normal tt, out ++ output_of c) /\ length (output_of c) = 1.
Proof. by destruct c. Qed.

Lemma press_all_concrete (cs : list Command) (r : RemoteControl) (out : console) :
  BaseCommand ∉ cs ->
  press_all cs r out
  = (Normal (foldl (fun r c => setCommand c r) r cs),
     out ++ concat (output_of <$> cs)).
Proof.
  revert r out. induction cs as [|c cs IH]; intros r out Hcs.
  - simpl. unfold ret. by rewrite app_nil_r.
  - apply not_elem_of_cons in Hcs as [Hc Hcs].
    cbn [press_all]. unfold bind, pressButton. simpl.
    destruct (execute_concrete c out) as [-> _]; [done|].
    rewrite IH by done. by rewrite <- app_assoc.
Qed.

Lemma command_foldl_setCommand (cs : list Command) (r : RemoteControl) :
  command (foldl (fun r c => setCommand c r) r cs)
  = match last cs with Some c => Some c | None => command r end.
Proof.
  revert r. induction cs as [|c cs IH]; intros r; [done|].
  simpl. rewrite IH. destruct cs as [|c' cs]; [reflexivity|].
  rewrite last_cons_cons.
  destruct (last (c' :: cs)) eqn:Hlast; [done|].
  by apply last_None in Hlast.
Qed.

End CommandSequences.

(** X16.  Plugging each command of a list into the remote and pressing
    the button after each runs every command once, in order: the console
    gets what each command writes, one line per command, and the remote
    ends up holding the last command only (whatever it held before is
    gone after the first [setCommand]). *)
Theorem press_all_runs_each
    (cs : list Command.Command) (r : Command.RemoteControl)
    (out : Command.console)
    (Hconcrete : Command.BaseCommand ∉ cs) :
  (exists r',
     Command.press_all cs r out
     = (Normal r', out ++ concat (Command.output_of <$> cs))
     /\ Command.command r'
        = match last cs with Some c => Some c | None => Command.command r end)
  /\ length (concat (Command.output_of <$> cs)) = length cs
  /\ (forall light tv,
        Command.output_of (Command.LightOnCommand light) = ["Light is ON"]
        /\ Command.output_of (Command.LightOffCommand light) = ["Light is OFF"]
        /\ Command.output_of (Command.TVOnCommand tv) = ["TV is ON"]
        /\ Command.output_of (Command.TVOffCommand tv) = ["TV is OFF"]).
Proof.
  split; [|split].
  - eexists. split; [by apply press_all_concrete|].
    apply command_foldl_setCommand.
  - induction cs as [|c cs IH]; [done|].
    apply not_elem_of_cons in Hconcrete as [Hc Hcs].
    cbn [fmap list_fmap concat]. rewrite length_app, IH by done.
    destruct (execute_concrete c []) as [_ ->]; [done|]. done.
  - done.
Qed.

Lemma press_all_runs_each_witness :
  let cs := [Command.LightOnCommand Command.new_Light;
             Command.TVOnCommand Command.new_TV;
             Command.LightOffCommand Command.new_Light] in
(Command.BaseCommand ∉ cs)
  /\ exists r',
       Command.press_all cs Command.new []
       = (Normal r', [] ++ concat (Command.output_of <$> cs))
       /\ Command.command r'
          = match last cs with
            | Some c => Some c
            | None => Command.command Command.new
            end.
Proof.
  intros cs.
  assert (Command.BaseCommand ∉ cs) as Hconcrete.
  { intros Hin. repeat (apply elem_of_cons in Hin as [Heq|Hin]; [discriminate|]).
    by apply elem_of_nil in Hin. }
  split; [exact Hconcrete|].
  exact (proj1 (press_all_runs_each cs Command.new [] Hconcrete)).
Defined.

(** X17.  A command of the base class is accepted by [setCommand] but
    cannot run: the press throws the error of [Command.execute], nothing
    is written for it, and the commands after it in the sequence are
    never reached.  What ran before it stays on the console. *)
Theorem press_all_stops_at_base
    (before after : list Command.Command) (r : Command.RemoteControl)
    (out : Command.console)
    (Hconcrete : Command.BaseCommand ∉ before) :
  Command.press_all (before ++ Command.BaseCommand :: after) r out
  = (Throw (Error "Execute method must be implemented"),
     out ++ concat (Command.output_of <$> before)).
Proof.
  revert r out. induction before as [|c cs IH]; intros r out.
  - simpl. unfold bind, Command.pressButton, throw. simpl.
    by rewrite app_nil_r.
  - apply not_elem_of_cons in Hconcrete as [Hc Hcs].
    cbn [app Command.press_all]. unfold bind, Command.pressButton. simpl.
    destruct (execute_concrete c out) as [-> _]; [done|].
    rewrite IH by done. by rewrite <- app_assoc.
Qed.

Lemma press_all_stops_at_base_witness :
(Command.BaseCommand ∉ [Command.LightOnCommand Command.new_Light])
  /\ Command.press_all
       ([Command.LightOnCommand Command.new_Light]
          ++ Command.BaseCommand :: [Command.TVOnCommand Command.new_TV])
       Command.new []
     = (Throw (Error "Execute method must be implemented"),
        [] ++ concat (Command.output_of <$> [Command.LightOnCommand Command.new_Light])).
Proof.
  assert (Command.BaseCommand ∉ [Command.LightOnCommand Command.new_Light])
    as Hconcrete.
  { intros Hin. apply elem_of_cons in Hin as [Heq|Hin]; [discriminate|].
    by apply elem_of_nil in Hin. }
  split; [exact Hconcrete|].
  exact (press_all_stops_at_base [Command.LightOnCommand Command.new_Light]
           [Command.TVOnCommand Command.new_TV] Command.new [] Hconcrete).
Defined.
